(** * goweave: sections of a Go source file, verified against goweave.go

    The development follows the program text of [goweave.go] (the version
    with Go directives and the [-intro] flag): the regular expressions
    declared in the [var] block, [commentFinder], [isDirective],
    [extractSections], [joinSections], [splitLeadingWs], [highlightCode]
    and [markdownCode].

    Go strings are byte sequences and are modelled as [list ascii].  The
    four patterns of the program contain only ASCII literals and the class
    [\s] (which in Go's RE2 syntax is [[\t\n\f\r ]]), and no byte of a
    multi-byte UTF-8 sequence is ASCII, so matching byte by byte gives the
    matches Go finds rune by rune.  [strings.TrimSpace] does look at runes
    and is modelled with Go's UTF-8 decoder. *)

From Stdlib Require Import Ascii String NArith.
From stdpp Require Import base list option sets.

Local Open Scope char_scope.
Local Open Scope nat_scope.
Local Open Scope list_scope.

(** ** Strings *)

Abbreviation gostring := (list ascii).

(** [gostr] reads a Go interpreted string literal: the escapes [\n], [\t],
    [\r] and [\\] denote one byte each. *)
Fixpoint gostr (s : string) : gostring :=
  match s with
  | EmptyString => []
  | String "\" (String "n" s') => "010" :: gostr s'
  | String "\" (String "t" s') => "009" :: gostr s'
  | String "\" (String "r" s') => "013" :: gostr s'
  | String "\" (String "\" s') => "\" :: gostr s'
  | String c s' => c :: gostr s'
  end.

Definition newline : ascii := "010".

#[global] Instance ascii_eq_dec : EqDecision ascii := ascii_dec.

(** [s[i:j]], [s[i:]] is [drop i s] and [s[:j]] is [take j s]. *)
Definition slice (src : gostring) (i j : nat) : gostring :=
  take (j - i) (drop i src).

(** The numeric value of byte [i] of [s] (0 past the end, where the
    program never reads). *)
Definition byteAt (s : gostring) (i : nat) : N :=
  match s !! i with
  | Some c => N_of_ascii c
  | None => 0%N
  end.

(** ** Package [regexp], as far as the program's patterns need it

    Go's [regexp] finds the leftmost match and, among the matches starting
    there, the one a backtracking search finds first.  The matcher below is
    that backtracking search for concatenations of the atoms the patterns
    use; an alternation of concatenations tries its branches in order. *)
Module regexp.

Inductive atom : Type :=
  | BeginText                      (* ^  (no multi-line flag) *)
  | EndText                        (* $  (no multi-line flag) *)
  | Lit (c : ascii)                (* a literal byte *)
  | Star (p : ascii -> bool)       (* c*, greedy *)
  | Opt (p : ascii -> bool).       (* c?, greedy *)

Definition Regexp := list (list atom).

(** [\s] of RE2: tab, newline, form feed, carriage return, space. *)
Definition perl_space (c : ascii) : bool :=
  match c with
  | "009" | "010" | "012" | "013" | " " => true
  | _ => false
  end.

(** [star p k atBeg s]: take bytes satisfying [p] as long as possible, then
    run the rest of the pattern [k]; give bytes back one at a time when the
    rest fails.  The result is the text left after the match. *)
Fixpoint star (p : ascii -> bool) (k : bool -> gostring -> option gostring)
    (atBeg : bool) (s : gostring) {struct s} : option gostring :=
  match s with
  | x :: s' =>
      if p x then
        match star p k false s' with
        | Some e => Some e
        | None => k atBeg s
        end
      else k atBeg s
  | [] => k atBeg s
  end.

(** [matchSeq r atBeg s] matches the concatenation [r] at the head of [s];
    [atBeg] says that [s] starts at offset 0 of the searched text. *)
Fixpoint matchSeq (r : list atom) (atBeg : bool) (s : gostring)
    {struct r} : option gostring :=
  match r with
  | [] => Some s
  | BeginText :: r' => if atBeg then matchSeq r' atBeg s else None
  | EndText :: r' =>
      match s with
      | [] => matchSeq r' atBeg s
      | _ :: _ => None
      end
  | Lit c :: r' =>
      match s with
      | x :: s' => if Ascii.eqb x c then matchSeq r' false s' else None
      | [] => None
      end
  | Opt p :: r' =>
      match s with
      | x :: s' =>
          if p x then
            match matchSeq r' false s' with
            | Some e => Some e
            | None => matchSeq r' atBeg s
            end
          else matchSeq r' atBeg s
      | [] => matchSeq r' atBeg s
      end
  | Star p :: r' => star p (matchSeq r') atBeg s
  end.

(** The first branch of the alternation that matches here wins. *)
Fixpoint matchHere (re : Regexp) (atBeg : bool) (s : gostring)
    : option gostring :=
  match re with
  | [] => None
  | r :: re' =>
      match matchSeq r atBeg s with
      | Some e => Some e
      | None => matchHere re' atBeg s
      end
  end.

(** Leftmost match in [s]: offsets [(a0, a1)] of its start and end,
    counted from the head of [s]. *)
Fixpoint search (re : Regexp) (atBeg : bool) (s : gostring)
    : option (nat * nat) :=
  match matchHere re atBeg s with
  | Some e => Some (0, length s - length e)
  | None =>
      match s with
      | [] => None
      | _ :: s' =>
          match search re false s' with
          | Some (a0, a1) => Some (S a0, S a1)
          | None => None
          end
      end
  end.

(** [re.doExecute(src, pos)]: leftmost match at or after [pos], with
    absolute offsets. *)
Definition doExecute (re : Regexp) (src : gostring) (pos : nat)
    : option (nat * nat) :=
  match search re (pos =? 0) (drop pos src) with
  | Some (a0, a1) => Some (pos + a0, pos + a1)
  | None => None
  end.

(** [re.FindString(s)]: the text of the leftmost match, [""] without one. *)
Definition FindString (re : Regexp) (s : gostring) : gostring :=
  match doExecute re s 0 with
  | Some (a0, a1) => slice s a0 a1
  | None => []
  end.

(** The loop of [Regexp.replaceAll].  [fuel] bounds the iterations: each
    one moves [searchPos] forward and the loop ends when it passes the end
    of [src]. *)
Fixpoint replaceLoop (fuel : nat) (re : Regexp) (src repl : gostring)
    (lastMatchEnd searchPos : nat) (buf : gostring) : gostring :=
  match fuel with
  | 0 => buf ++ drop lastMatchEnd src
  | S fuel' =>
      if searchPos <=? length src then
        match doExecute re src searchPos with
        | None => buf ++ drop lastMatchEnd src
        | Some (a0, a1) =>
            (* copy the unmatched bytes before this match *)
            let buf := buf ++ slice src lastMatchEnd a0 in
            (* no replacement for an empty match right after a match *)
            let buf :=
              if (lastMatchEnd <? a1) || (a0 =? 0) then buf ++ repl
              else buf in
            (* advance past this match, by one byte at least *)
            let width := if searchPos <? length src then 1 else 0 in
            let searchPos' :=
              if a1 <? searchPos + width then searchPos + width
              else if a1 <? searchPos + 1 then searchPos + 1
              else a1 in
            replaceLoop fuel' re src repl a1 searchPos' buf
        end
      else buf ++ drop lastMatchEnd src
  end.

Definition ReplaceAllString (re : Regexp) (src repl : gostring) : gostring :=
  replaceLoop (length src + 2) re src repl 0 0 [].

End regexp.

(** ** The patterns of the [var] block *)

Import regexp.

(** [commentPtrn = `^\s*//\s?`] *)
Definition commentPtrn : list atom :=
  [BeginText; Star perl_space; Lit "/"; Lit "/"; Opt perl_space].

(** [commentStartPtrn = `^\s*/\*\s?`] *)
Definition commentStartPtrn : list atom :=
  [BeginText; Star perl_space; Lit "/"; Lit "*"; Opt perl_space].

(** [commentEndPtrn = `\s?\*/\s*$`] *)
Definition commentEndPtrn : list atom :=
  [Opt perl_space; Lit "*"; Lit "/"; Star perl_space; EndText].

(** [directivePtrn = `^//go:`] *)
Definition directivePtrn : list atom :=
  [BeginText; Lit "/"; Lit "/"; Lit "g"; Lit "o"; Lit ":"].

Definition comment : Regexp := [commentPtrn].
Definition commentStart : Regexp := [commentStartPtrn].
Definition commentEnd : Regexp := [commentEndPtrn].
Definition directive : Regexp := [directivePtrn].
(** [commentPtrn + "|" + commentStartPtrn + "|" + commentEndPtrn] *)
Definition allCommentDelims : Regexp :=
  [commentPtrn; commentStartPtrn; commentEndPtrn].

(** ** Package [unicode/utf8] *)
Module utf8.

Definition RuneError : N := 65533.   (* U+FFFD *)
Definition RuneSelf : N := 128.
Definition UTFMax : nat := 4.

(** The table [first]: what the first byte of a sequence announces.  [as_]
    is ASCII, [xx] an invalid first byte, [sz n lo hi] a sequence of [n]
    bytes whose second byte lies in [lo..hi] (Go's entries s1 to s7 with
    their accept ranges). *)
Inductive firstInfo : Type :=
  | as_
  | xx
  | sz (size : nat) (lo hi : N).

Definition first (b : N) : firstInfo :=
  if (b <? 128)%N then as_                        (* 0x00-0x7F *)
  else if (b <? 194)%N then xx                    (* 0x80-0xC1 *)
  else if (b <? 224)%N then sz 2 128 191          (* 0xC2-0xDF: s1 *)
  else if (b =? 224)%N then sz 3 160 191          (* 0xE0: s2 *)
  else if (b <? 237)%N then sz 3 128 191          (* 0xE1-0xEC: s3 *)
  else if (b =? 237)%N then sz 3 128 159          (* 0xED: s4 *)
  else if (b <? 240)%N then sz 3 128 191          (* 0xEE-0xEF: s3 *)
  else if (b =? 240)%N then sz 4 144 191          (* 0xF0: s5 *)
  else if (b <? 244)%N then sz 4 128 191          (* 0xF1-0xF3: s6 *)
  else if (b =? 244)%N then sz 4 128 143          (* 0xF4: s7 *)
  else xx.                                        (* 0xF5-0xFF *)

Definition locb : N := 128.
Definition hicb : N := 191.
Definition maskx : N := 63.
Definition mask2 : N := 31.
Definition mask3 : N := 15.
Definition mask4 : N := 7.

(** [utf8.DecodeRuneInString]: the first rune of [s] and its width; an
    invalid or truncated sequence is [(RuneError, 1)]. *)
Definition DecodeRuneInString (s : gostring) : N * nat :=
  match s with
  | [] => (RuneError, 0)
  | c0 :: _ =>
      let s0 := N_of_ascii c0 in
      match first s0 with
      | as_ => (s0, 1)
      | xx => (RuneError, 1)
      | sz size lo hi =>
          if length s <? size then (RuneError, 1) else
          let s1 := byteAt s 1 in
          if (s1 <? lo)%N || (hi <? s1)%N then (RuneError, 1) else
          if size <=? 2 then
            (N.lor (N.shiftl (N.land s0 mask2) 6) (N.land s1 maskx), 2)
          else
          let s2 := byteAt s 2 in
          if (s2 <? locb)%N || (hicb <? s2)%N then (RuneError, 1) else
          if size <=? 3 then
            (N.lor (N.lor (N.shiftl (N.land s0 mask3) 12)
                          (N.shiftl (N.land s1 maskx) 6))
                   (N.land s2 maskx), 3)
          else
          let s3 := byteAt s 3 in
          if (s3 <? locb)%N || (hicb <? s3)%N then (RuneError, 1) else
          (N.lor (N.lor (N.lor (N.shiftl (N.land s0 mask4) 18)
                               (N.shiftl (N.land s1 maskx) 12))
                        (N.shiftl (N.land s2 maskx) 6))
                 (N.land s3 maskx), 4)
      end
  end.

(** [utf8.RuneStart]: not a continuation byte. *)
Definition RuneStart (b : N) : bool :=
  negb (N.land b 192 =? 128)%N.

(** The backwards scan of [DecodeLastRuneInString]:
    [for start--; start >= lim; start-- { if RuneStart(s[start]) { break } }],
    entered with [start] already decremented.  [None] is the index -1. *)
Fixpoint scanBack (n : nat) (s : gostring) (start : option nat) (lim : nat)
    : option nat :=
  match n, start with
  | S n', Some i =>
      if lim <=? i then
        if RuneStart (byteAt s i) then Some i
        else scanBack n' s (if i is S j then Some j else None) lim
      else Some i
  | _, _ => start
  end.

(** [utf8.DecodeLastRuneInString] *)
Definition DecodeLastRuneInString (s : gostring) : N * nat :=
  let end_ := length s in
  match end_ with
  | 0 => (RuneError, 0)
  | S start =>
      let r := byteAt s start in
      if (r <? RuneSelf)%N then (r, 1) else
      let lim := end_ - UTFMax in
      let start' :=
        scanBack UTFMax s (if start is S j then Some j else None) lim in
      let start'' := default 0 start' in
      let '(r, size) := DecodeRuneInString (slice s start'' end_) in
      if negb (start'' + size =? end_) then (RuneError, 1)
      else (r, size)
  end.

End utf8.

(** ** Package [unicode] *)
Module unicode.

(** [unicode.IsSpace]: the Latin-1 cases of the function and the ranges of
    the table [White_Space] above Latin-1. *)
Definition IsSpace (r : N) : bool :=
  if (r <=? 255)%N then
    match r with
    | 9%N | 10%N | 11%N | 12%N | 13%N | 32%N | 133%N | 160%N => true
    | _ => false
    end
  else
    (r =? 5760)%N                               (* U+1680 *)
    || ((8192 <=? r)%N && (r <=? 8202)%N)       (* U+2000-U+200A *)
    || ((8232 <=? r)%N && (r <=? 8233)%N)       (* U+2028-U+2029 *)
    || (r =? 8239)%N                            (* U+202F *)
    || (r =? 8287)%N                            (* U+205F *)
    || (r =? 12288)%N.                          (* U+3000 *)

End unicode.

(** ** Package [strings] *)
Module strings.

(** [strings.Split(s, sep)] for a separator of one byte: the pieces of [s]
    between the separators, one more than there are separators. *)
Fixpoint Split (s : gostring) (sep : ascii) : list gostring :=
  match s with
  | [] => [[]]
  | c :: s' =>
      if Ascii.eqb c sep then [] :: Split s' sep
      else
        match Split s' sep with
        | l :: ls => (c :: l) :: ls
        | [] => [[c]]
        end
  end.

(** [strings.HasPrefix] *)
Fixpoint HasPrefix (s prefix : gostring) : bool :=
  match prefix, s with
  | [], _ => true
  | p :: prefix', c :: s' => Ascii.eqb c p && HasPrefix s' prefix'
  | _ :: _, [] => false
  end.

(** [strings.Index(s, substr)]: the offset of the first occurrence of
    [substr] in [s]; [None] is Go's -1. *)
Fixpoint Index (s substr : gostring) : option nat :=
  if HasPrefix s substr then Some 0
  else
    match s with
    | [] => None
    | _ :: s' => S <$> Index s' substr
    end.

Definition inCutset (cutset : gostring) (c : ascii) : bool :=
  existsb (Ascii.eqb c) cutset.

Fixpoint dropWhile (p : ascii -> bool) (s : gostring) : gostring :=
  match s with
  | c :: s' => if p c then dropWhile p s' else s
  | [] => []
  end.

Fixpoint takeWhile (p : ascii -> bool) (s : gostring) : gostring :=
  match s with
  | c :: s' => if p c then c :: takeWhile p s' else []
  | [] => []
  end.

(** [strings.TrimLeft], [strings.TrimRight] and [strings.Trim] for a
    cutset of ASCII bytes, which is what the program passes. *)
Definition TrimLeft (s cutset : gostring) : gostring :=
  dropWhile (inCutset cutset) s.

Definition TrimRight (s cutset : gostring) : gostring :=
  rev (dropWhile (inCutset cutset) (rev s)).

Definition Trim (s cutset : gostring) : gostring :=
  TrimLeft (TrimRight s cutset) cutset.

(** [indexFunc(s, f, truth)]: [for i, r := range s] decodes rune after
    rune.  [i] is the offset reached; [None] is -1. *)
Fixpoint indexFuncFrom (fuel : nat) (s : gostring) (f : N -> bool)
    (truth : bool) (i : nat) : option nat :=
  match fuel, s with
  | S fuel', _ :: _ =>
      let '(r, size) := utf8.DecodeRuneInString s in
      if Bool.eqb (f r) truth then Some i
      else indexFuncFrom fuel' (drop size s) f truth (i + size)
  | _, _ => None
  end.

Definition indexFunc (s : gostring) (f : N -> bool) (truth : bool)
    : option nat :=
  indexFuncFrom (length s) s f truth 0.

(** [lastIndexFunc(s, f, truth)]:
    [for i := len(s); i > 0; { r, size := DecodeLastRuneInString(s[0:i]); ... }] *)
Fixpoint lastIndexFuncFrom (fuel : nat) (s : gostring) (f : N -> bool)
    (truth : bool) (i : nat) : option nat :=
  match fuel with
  | S fuel' =>
      if 0 <? i then
        let '(r, size) := utf8.DecodeLastRuneInString (take i s) in
        let i := i - size in
        if Bool.eqb (f r) truth then Some i
        else lastIndexFuncFrom fuel' s f truth i
      else None
  | 0 => None
  end.

Definition lastIndexFunc (s : gostring) (f : N -> bool) (truth : bool)
    : option nat :=
  lastIndexFuncFrom (length s) s f truth (length s).

Definition TrimLeftFunc (s : gostring) (f : N -> bool) : gostring :=
  match indexFunc s f false with
  | None => []
  | Some i => drop i s
  end.

Definition TrimRightFunc (s : gostring) (f : N -> bool) : gostring :=
  match lastIndexFunc s f false with
  | Some i =>
      if (utf8.RuneSelf <=? byteAt s i)%N then
        let '(_, wid) := utf8.DecodeRuneInString (drop i s) in
        take (i + wid) s
      else take (i + 1) s
  | None => take 0 s
  end.

Definition TrimFunc (s : gostring) (f : N -> bool) : gostring :=
  TrimRightFunc (TrimLeftFunc s f) f.

(** [strings.TrimSpace]: white space as Unicode defines it.  (Newer Go
    versions first skip ASCII space bytes and then call the functions
    above; the result is the same.) *)
Definition TrimSpace (s : gostring) : gostring :=
  TrimFunc s unicode.IsSpace.

(** [strings.Join(elems, sep)] for a separator of one byte. *)
Fixpoint Join (elems : list gostring) (sep : ascii) : gostring :=
  match elems with
  | [] => []
  | [e] => e
  | e :: elems' => e ++ sep :: Join elems' sep
  end.

(** [strings.Count(s, sep)] for a separator of one byte. *)
Fixpoint Count (s : gostring) (sep : ascii) : nat :=
  match s with
  | [] => 0
  | c :: s' => (if Ascii.eqb c sep then 1 else 0) + Count s' sep
  end.

End strings.

(** ** Sections and the store they live in

    The program handles sections through pointers ([[]*section],
    [new(section)]) and updates them in place.  The store [heap] holds the
    allocated sections; a pointer is an index into it, and [new] returns
    the next free index. *)

Record section : Type := mkSection { Doc : gostring; Code : gostring }.

Abbreviation ptr := nat.
Abbreviation heap := (list section).

(** [new(section)]: both fields are the empty string. *)
Definition zeroSection : section := mkSection [] [].

Definition new (h : heap) : heap * ptr := (h ++ [zeroSection], length h).

(** [*p] for an allocated [p]. *)
Definition load (h : heap) (p : ptr) : section :=
  default zeroSection (h !! p).

Definition setDoc (h : heap) (p : ptr) (v : gostring) : heap :=
  <[p := mkSection v (Code (load h p))]> h.

Definition setCode (h : heap) (p : ptr) (v : gostring) : heap :=
  <[p := mkSection (Doc (load h p)) v]> h.

(** The sections a list of pointers denotes, in order. *)
Definition contents (h : heap) (ps : list ptr) : list section :=
  load h <$> ps.

(** ** Processing sections *)

(** [commentFinder] returns a closure over [commentSectionInProgress],
    initially [false].  A call of the closure is [isInComment]: it takes
    the current value of the variable and returns the answer together with
    the new value. *)
Definition commentFinder : bool := false.

Definition isInComment (commentSectionInProgress : bool) (line : gostring)
    : bool * bool :=
  if negb (bool_decide (FindString comment line = [])) then
    (true, commentSectionInProgress)
  else if negb (bool_decide (FindString commentStart line = [])) then
    (true, true)
  else if negb (bool_decide (FindString commentEnd line = [])) then
    (true, false)
  else if commentSectionInProgress then
    (true, commentSectionInProgress)
  else
    (false, commentSectionInProgress).

Definition isDirective (line : gostring) : bool :=
  if negb (bool_decide (FindString directive line = [])) then true
  else false.

(** The variables of [extractSections]. *)
Record state : Type := mkState {
  st_heap : heap;
  sections : list ptr;
  current : ptr;
  commentSectionInProgress : bool
}.

(** What one pass through the loop body does: go on with the next line, or
    leave the loop ([break]). *)
Inductive outcome : Type :=
  | Next (st : state)
  | Break (st : state).

Definition outcome_state (o : outcome) : state :=
  match o with Next st | Break st => st end.

(** The body of [for _, line := range strings.Split(source, "\n")];
    [intro] is the flag [*intro]. *)
Definition extractStep (intro : bool) (line : gostring) (st : state)
    : outcome :=
  if isDirective line then Next st
  else
    let '(isC, inProgress) := isInComment (commentSectionInProgress st) line in
    if isC then
      let '(h, secs, cur) :=
        if negb (bool_decide (Code (load (st_heap st) (current st)) = []))
        then
          let '(h', p) := new (st_heap st) in
          (h', sections st ++ [current st], p)
        else (st_heap st, sections st, current st) in
      let doc :=
        Doc (load h cur)
        ++ ReplaceAllString allCommentDelims line [] ++ [newline] in
      Next (mkState (setDoc h cur doc) secs cur inProgress)
    else if intro then
      Break (mkState (st_heap st) (sections st) (current st) inProgress)
    else
      let code := Code (load (st_heap st) (current st)) ++ line ++ [newline] in
      Next (mkState (setCode (st_heap st) (current st) code)
                    (sections st) (current st) inProgress).

Fixpoint extractLoop (intro : bool) (lines : list gostring) (st : state)
    : state :=
  match lines with
  | [] => st
  | line :: rest =>
      match extractStep intro line st with
      | Next st' => extractLoop intro rest st'
      | Break st' => st'
      end
  end.

(** [var sections []*section; current := new(section);
    isInComment := commentFinder()] *)
Definition extractInit : state :=
  let '(h, p) := new [] in mkState h [] p commentFinder.

(** [extractSections] returns the store and the slice of pointers
    [append(sections, current)]. *)
Definition extractSections (intro : bool) (source : gostring)
    : heap * list ptr :=
  let st := extractLoop intro (strings.Split source newline) extractInit in
  (st_heap st, sections st ++ [current st]).

(** The sections [extractSections] returns, as values. *)
Definition extracted (intro : bool) (source : gostring) : list section :=
  let '(h, ps) := extractSections intro source in contents h ps.

(** [joinSections] *)
Fixpoint joinSections (h : heap) (ps : list ptr) : gostring :=
  match ps with
  | [] => []
  | p :: ps' => (Doc (load h p) ++ Code (load h p)) ++ joinSections h ps'
  end.

(** [splitLeadingWs]; [None] when the slice expression [s[:i]] panics
    (index -1). *)
Definition splitLeadingWs (s : gostring) : option (gostring * gostring) :=
  let code := strings.TrimLeft s (gostr "\t ") in
  match strings.Index s code with
  | Some i => Some (take i s, code)
  | None => None
  end.

(** [for i := range sections { body }], where the body works on the
    section [sections[i]] points to; [None] is a run-time panic, which
    ends the loop. *)
Fixpoint forRange (body : heap -> ptr -> option heap) (h : heap)
    (ps : list ptr) : option heap :=
  match ps with
  | [] => Some h
  | p :: ps' =>
      match body h p with
      | Some h' => forRange body h' ps'
      | None => None
      end
  end.

Section Highlighting.

(** [litebrite.Highlighter.Highlight], a function of the code text that
    the development does not look into. *)
Variable Highlight : gostring -> gostring.

(** The body of the loop of [highlightCode] for the pointer [sections[i]];
    [None] is a run-time panic. *)
Definition highlightOne (h : heap) (p : ptr) : option heap :=
  match h !! p with
  | None => None
  | Some sec =>
      let s := Code sec in
      if negb (bool_decide
           (strings.TrimSpace (strings.Trim s (gostr "\n")) = []))
      then
        match splitLeadingWs s with
        | Some (ws, code) => Some (setCode h p (ws ++ Highlight code))
        | None => None
        end
      else Some (setCode h p [])
  end.

Definition highlightCode (h : heap) (ps : list ptr) : option heap :=
  forRange highlightOne h ps.

End Highlighting.

(** [markdownCode]: the code goes into Markdown code fences. *)
Definition markdownOne (h : heap) (p : ptr) : option heap :=
  match h !! p with
  | None => None
  | Some sec =>
      if negb (bool_decide (Code sec = gostr "\n")) then
        Some (setCode h p (gostr "\n```go\n" ++ Code sec ++ gostr "```\n"))
      else Some h
  end.

Definition markdownCode (h : heap) (ps : list ptr) : option heap :=
  forRange markdownOne h ps.

(** ** Notions used to state the properties *)

(** The state of the closure after it has been called on [lines] in turn. *)
Definition finderState (inProgress : bool) (lines : list gostring) : bool :=
  fold_left (fun flag line => (isInComment flag line).2) lines inProgress.

(** [matches re line]: the test [re.FindString(line) != ""] of the program. *)
Definition matches (re : Regexp) (line : gostring) : bool :=
  negb (bool_decide (FindString re line = [])).

(** What a line leaves in a section: the text without comment delimiters
    for a comment line, the line itself otherwise. *)
Definition stripped (line : gostring) : gostring :=
  ReplaceAllString allCommentDelims line [].

(** The texts the lines that are not directives leave, in order; the
    classifier is threaded through the lines it sees. *)
Fixpoint linePieces (inProgress : bool) (lines : list gostring)
    : list gostring :=
  match lines with
  | [] => []
  | line :: rest =>
      if isDirective line then linePieces inProgress rest
      else
        let '(isC, inProgress') := isInComment inProgress line in
        (if isC then stripped line else line) :: linePieces inProgress' rest
  end.

(** [commentBlock flag lines = Some flag']: every line of [lines] that is
    not a directive is classified as a comment, and the classifier ends in
    state [flag']. *)
Fixpoint commentBlock (inProgress : bool) (lines : list gostring)
    : option bool :=
  match lines with
  | [] => Some inProgress
  | line :: rest =>
      if isDirective line then commentBlock inProgress rest
      else
        let '(isC, inProgress') := isInComment inProgress line in
        if isC then commentBlock inProgress' rest else None
  end.

(** The lines the loop of [extractSections] does not skip. *)
Definition notDirective (line : gostring) : bool := negb (isDirective line).

(** The source text without its directive lines. *)
Definition deleteDirectives (source : gostring) : gostring :=
  strings.Join (filter notDirective (strings.Split source newline)) newline.

(** The runes of a string, as [for _, r := range s] yields them. *)
Fixpoint runesFrom (fuel : nat) (s : gostring) : list N :=
  match fuel, s with
  | S fuel', _ :: _ =>
      let '(r, size) := utf8.DecodeRuneInString s in
      r :: runesFrom fuel' (drop size s)
  | _, _ => []
  end.

Definition runes (s : gostring) : list N := runesFrom (length s) s.

(** A text made of white space only (newlines are white space). *)
Definition onlyWhitespace (s : gostring) : bool :=
  forallb unicode.IsSpace (runes s).

(** The bytes of the cutset ["\t "] of [splitLeadingWs]. *)
Definition isSpaceOrTab (c : ascii) : bool :=
  match c with
  | "009" | " " => true
  | _ => false
  end.

(** The fence [markdownCode] puts around a code text. *)
Definition fenced (code : gostring) : gostring :=
  gostr "\n```go\n" ++ code ++ gostr "```\n".

(** ** The rest of the pipeline *)

(** [docs], the value handed to the template.  [Sections] holds pointers;
    the template reads the sections through the store. *)
Record docs : Type := mkDocs {
  Filename : gostring;
  Sections : list ptr;
  CssPath : gostring;
  Style : gostring;
  Full : bool;
  InlineCSS : bool
}.

(** [cssfilename = "goweave.css"] *)
Definition cssfilename : gostring := gostr "goweave.css".

Section Pipeline.

(** The collaborators of [generateDocs], which the development does not
    look into: [litebrite]'s highlighter, [markdownString] (a call of
    [blackfriday.MarkdownOptions] with fixed options), [path.Clean],
    [os.PathSeparator], and [templ.Execute], whose error ([None]) makes
    [generateDocs] panic. *)
Variable Highlight : gostring -> gostring.
Variable markdownString : gostring -> gostring.
Variable pathClean : gostring -> gostring.
Variable PathSeparator : ascii.
Variable Execute : heap -> docs -> option gostring.

(** The flags [*md], [*intro], [*bare], [*inline], [*csspath] and the
    global [style]. *)
Variable md intro bare inline : bool.
Variable csspath style : gostring.

(** The body of the loop of [markdownComments]:
    [section.Doc = markdownString(section.Doc)]. *)
Definition markdownCommentsOne (h : heap) (p : ptr) : option heap :=
  match h !! p with
  | None => None
  | Some sec => Some (setDoc h p (markdownString (Doc sec)))
  end.

Definition markdownComments (h : heap) (ps : list ptr) : option heap :=
  forRange markdownCommentsOne h ps.

(** [generateDocs]; [None] is a panic. *)
Definition generateDocs (title src : gostring) : option gostring :=
  let '(h, secs) := extractSections intro src in
  if negb md then
    match highlightCode Highlight h secs with
    | None => None
    | Some h1 =>
        match markdownComments h1 secs with
        | None => None
        | Some h2 =>
            let cleanCssPath :=
              if 0 <? length csspath then pathClean csspath ++ [PathSeparator]
              else [] in
            Execute h2
              (mkDocs title secs (cleanCssPath ++ cssfilename) style
                      (negb bare) inline)
        end
    end
  else
    match (if negb intro then markdownCode h secs else Some h) with
    | None => None
    | Some h1 => Some (joinSections h1 secs)
    end.

End Pipeline.

(** [getHomeDir]; [getenv] is [os.Getenv], which gives [""] for a
    variable that is not set. *)
Definition getHomeDir (getenv : gostring -> gostring) : gostring :=
  let home := getenv (gostr "HOMEDRIVE") ++ getenv (gostr "HOMEPATH") in
  let home :=
    if bool_decide (home = []) then getenv (gostr "USERPROFILE") else home in
  let home :=
    if bool_decide (home = []) then getenv (gostr "HOME") else home in
  home.

(** ** The earlier version of the program, [goweave.go]

    It has the same patterns apart from the directive pattern, no
    [-intro] flag, and a [commentFinder] with one more test at its end. *)
Module v1.

Definition isInComment (commentSectionInProgress : bool) (line : gostring)
    : bool * bool :=
  if negb (bool_decide (FindString comment line = [])) then
    (true, commentSectionInProgress)
  else if negb (bool_decide (FindString commentStart line = [])) then
    (true, true)
  else if negb (bool_decide (FindString commentEnd line = [])) then
    (true, false)
  else if commentSectionInProgress then
    (true, commentSectionInProgress)
  else if length line =? 0 then
    (false, commentSectionInProgress)
  else
    (false, commentSectionInProgress).

(** The body of the loop of [extractSections]. *)
Definition extractStep (line : gostring) (st : state) : state :=
  let '(isC, inProgress) := isInComment (commentSectionInProgress st) line in
  if isC then
    let '(h, secs, cur) :=
      if negb (bool_decide (Code (load (st_heap st) (current st)) = []))
      then
        let '(h', p) := new (st_heap st) in
        (h', sections st ++ [current st], p)
      else (st_heap st, sections st, current st) in
    let doc :=
      Doc (load h cur)
      ++ ReplaceAllString allCommentDelims line [] ++ [newline] in
    mkState (setDoc h cur doc) secs cur inProgress
  else
    let code := Code (load (st_heap st) (current st)) ++ line ++ [newline] in
    mkState (setCode (st_heap st) (current st) code)
            (sections st) (current st) inProgress.

Definition extractLoop (lines : list gostring) (st : state) : state :=
  fold_left (fun st line => extractStep line st) lines st.

Definition extractSections (source : gostring) : heap * list ptr :=
  let st := extractLoop (strings.Split source newline) extractInit in
  (st_heap st, sections st ++ [current st]).

End v1.

(** The leading lines of [lines] that the loop of [extractSections] takes
    in under [-intro]: up to the first line that is neither a directive
    nor classified as a comment. *)
Fixpoint introLines (inProgress : bool) (lines : list gostring)
    : list gostring :=
  match lines with
  | [] => []
  | line :: rest =>
      if isDirective line then introLines inProgress rest
      else
        let '(isC, inProgress') := isInComment inProgress line in
        if isC then line :: introLines inProgress' rest else []
  end.

(** A text that is empty or ends in a newline. *)
Definition newlineTerminated (s : gostring) : Prop :=
  s = [] \/ exists t, s = t ++ [newline].

(** What is left of the text after a comment marker: one white-space
    byte, if the text begins with one, is dropped ([\s?] of the
    patterns). *)
Definition dropOneSpace (rest : gostring) : gostring :=
  match rest with
  | c :: r => if perl_space c then r else rest
  | [] => []
  end.

(** The answers of the closure of [commentFinder] for [lines], called in
    turn from the state [inProgress]. *)
Fixpoint answers (inProgress : bool) (lines : list gostring) : list bool :=
  match lines with
  | [] => []
  | line :: rest =>
      (isInComment inProgress line).1
      :: answers (isInComment inProgress line).2 rest
  end.

(** ** Notions used in the proofs *)

(** The shape every store of [extractSections] has: docs and codes are
    empty or end in a newline, and every section after the first has a
    doc. *)
Definition shaped (h : heap) : Prop :=
  Forall (fun s => newlineTerminated (Doc s) /\ newlineTerminated (Code s)) h
  /\ Forall (fun s => Doc s <> []) (drop 1 h).

(** Sections are allocated one after the other and the one allocated last
    is [current]: the pointers pushed so far are [0 .. current - 1]. *)
Definition wf (st : state) : Prop :=
  sections st = seq 0 (current st) /\ length (st_heap st) = S (current st).

(** The source text of the first example. *)
Definition example1 : gostring :=
  gostr "// Test comment\n// more comment\n\nTest code\nMore code\n\n// Second comment\n  Second code snippet\n\n".

(** The source text of the second example. *)
Definition example2 : gostring := gostr "/* Third\nEnd */\n".

(** The invariant of the loop: the store is [front ++ [cur]], the pushed
    pointers name the cells of [front] in order, [current] names [cur],
    and every pushed section has some code. *)
Definition inv (st : state) : Prop :=
  exists front cur,
    st_heap st = front ++ [cur] /\ length front = current st
    /\ sections st = seq 0 (current st)
    /\ Forall (fun s => Code s <> []) front.

(** What [joinSections] adds for one section. *)
Definition sectionText (s : section) : gostring := Doc s ++ Code s.

(** [DecodeRuneInString] as a function of the length of the string and of
    its first four bytes. *)
Definition decodeAt (len : nat) (s0 s1 s2 s3 : N) : N * nat :=
  match utf8.first s0 with
  | utf8.as_ => (s0, 1)
  | utf8.xx => (utf8.RuneError, 1)
  | utf8.sz size lo hi =>
      if len <? size then (utf8.RuneError, 1) else
      if (s1 <? lo)%N || (hi <? s1)%N then (utf8.RuneError, 1) else
      if size <=? 2 then
        (N.lor (N.shiftl (N.land s0 utf8.mask2) 6) (N.land s1 utf8.maskx), 2)
      else
      if (s2 <? utf8.locb)%N || (utf8.hicb <? s2)%N then (utf8.RuneError, 1)
      else
      if size <=? 3 then
        (N.lor (N.lor (N.shiftl (N.land s0 utf8.mask3) 12)
                      (N.shiftl (N.land s1 utf8.maskx) 6))
               (N.land s2 utf8.maskx), 3)
      else
      if (s3 <? utf8.locb)%N || (utf8.hicb <? s3)%N then (utf8.RuneError, 1)
      else
      (N.lor (N.lor (N.lor (N.shiftl (N.land s0 utf8.mask4) 18)
                           (N.shiftl (N.land s1 utf8.maskx) 12))
                    (N.shiftl (N.land s2 utf8.maskx) 6))
             (N.land s3 utf8.maskx), 4)
  end.

(** The code [highlightCode] stores for a section whose code is [s]. *)
Definition highlighted (Highlight : gostring -> gostring) (s : gostring)
    : gostring :=
  if onlyWhitespace s then []
  else strings.takeWhile isSpaceOrTab s
       ++ Highlight (strings.dropWhile isSpaceOrTab s).

(** The code [markdownCode] stores for a section whose code is [s]. *)
Definition fencedUnlessNewline (s : gostring) : gostring :=
  if bool_decide (s = gostr "\n") then s else fenced s.

(** * Properties *)

(** ** Regular expressions *)

Lemma search_anchored_false r s : search [BeginText :: r] false s = None.
Proof.
  induction s as [|x s IH]; simpl; [done|].
  by rewrite IH.
Qed.

Lemma search_anchored r s :
  search [BeginText :: r] true s =
  match matchSeq r true s with
  | Some e => Some (0, length s - length e)
  | None => None
  end.
Proof.
  destruct s as [|x s]; simpl.
  - by destruct (matchSeq r true []).
  - destruct (matchSeq r true (x :: s)); [done|].
    by rewrite search_anchored_false.
Qed.

(** A greedy run of [p] followed by a pattern that cannot start with a
    byte of [p] never has to give bytes back. *)
Lemma star_no_backtrack p k atBeg s :
  (forall b b' t, k b t = k b' t) ->
  (forall b x t, p x = true -> k b (x :: t) = None) ->
  star p k atBeg s = k false (strings.dropWhile p s).
Proof.
  intros Hb Hk. revert atBeg.
  induction s as [|x s IH]; intros atBeg; simpl; [apply Hb|].
  destruct (p x) eqn:Hp; [|apply Hb].
  rewrite IH.
  destruct (k false (strings.dropWhile p s)); [done|].
  by apply Hk.
Qed.

Lemma matchSeq_slash_after_space c atBeg s :
  matchSeq [Star perl_space; Lit "/"; Lit c; Opt perl_space] atBeg s =
  matchSeq [Lit "/"; Lit c; Opt perl_space] false
           (strings.dropWhile perl_space s).
Proof.
  change (matchSeq [Star perl_space; Lit "/"; Lit c; Opt perl_space] atBeg s)
    with (star perl_space (matchSeq [Lit "/"; Lit c; Opt perl_space]) atBeg s).
  apply star_no_backtrack.
  - by intros b b' [|x t].
  - intros b x t Hx. cbn [matchSeq].
    destruct (Ascii.eqb_spec x "/") as [->|]; [done|done].
Qed.

(** The match of an anchored pattern is empty only when there is none:
    [FindString] is [""] exactly when the pattern does not match. *)
Lemma FindString_anchored r s :
  FindString [BeginText :: r] s =
  match matchSeq r true s with
  | Some e => take (length s - length e) s
  | None => []
  end.
Proof.
  unfold FindString, doExecute. rewrite drop_0. cbn [Nat.eqb].
  rewrite search_anchored.
  destruct (matchSeq r true s); [|done].
  unfold slice. by rewrite drop_0, Nat.sub_0_r.
Qed.

(** A line on which the block-comment start pattern matches is not one
    on which the single-line pattern matches: after the leading blanks
    comes [/*], not [//]. *)
Lemma commentStart_not_comment line :
  matches commentStart line = true -> matches comment line = false.
Proof.
  unfold matches, commentStart, comment, commentStartPtrn, commentPtrn.
  rewrite !FindString_anchored, !matchSeq_slash_after_space.
  destruct (strings.dropWhile perl_space line) as [|x [|y t]] eqn:Hd;
    cbn [matchSeq]; try done.
  - by destruct (Ascii.eqb x "/").
  - destruct (Ascii.eqb_spec x "/") as [->|]; [|done].
    destruct (Ascii.eqb_spec y "*") as [->|]; [|done].
    done.
Qed.

(** [ReplaceAllString] with an empty replacement only removes bytes. *)
Lemma slice_subseteq (s : gostring) i j : slice s i j ⊆ s.
Proof.
  unfold slice. etrans; [apply subseteq_take|apply subseteq_drop].
Qed.

Lemma replaceLoop_subseteq fuel re src lastMatchEnd searchPos buf c :
  c ∈ replaceLoop fuel re src [] lastMatchEnd searchPos buf ->
  c ∈ buf \/ c ∈ src.
Proof.
  revert lastMatchEnd searchPos buf.
  induction fuel as [|fuel IH]; intros lastMatchEnd searchPos buf; simpl.
  - rewrite elem_of_app. intros [?|?]; [by left|right].
    by eapply subseteq_drop.
  - destruct (searchPos <=? length src).
    + destruct (doExecute re src searchPos) as [[a0 a1]|].
      * intros H. apply IH in H. destruct H as [H|H]; [|by right].
        assert (c ∈ buf ++ slice src lastMatchEnd a0) as H'.
        { destruct (_ || _) in H; [by rewrite app_nil_r in H|done]. }
        apply elem_of_app in H'. destruct H' as [?|?]; [by left|right].
        by eapply slice_subseteq.
      * rewrite elem_of_app. intros [?|?]; [by left|right].
        by eapply subseteq_drop.
    + rewrite elem_of_app. intros [?|?]; [by left|right].
      by eapply subseteq_drop.
Qed.

Lemma doExecute_bounds re src pos a0 a1 :
  doExecute re src pos = Some (a0, a1) -> pos <= a0 /\ pos <= a1.
Proof.
  unfold doExecute.
  destruct (search re (pos =? 0) (drop pos src)) as [[b0 b1]|]; [|done].
  intros [= <- <-]. lia.
Qed.

(** Every pass of the loop of [replaceAll] moves [searchPos] forward. *)
Lemma searchPos_advances (searchPos a1 width : nat) :
  searchPos <= a1 ->
  searchPos <
  (if a1 <? searchPos + width then searchPos + width
   else if a1 <? searchPos + 1 then searchPos + 1 else a1).
Proof.
  intros Ha.
  destruct (Nat.ltb_spec a1 (searchPos + width)); [lia|].
  destruct (Nat.ltb_spec a1 (searchPos + 1)); lia.
Qed.

(** The fuel of [ReplaceAllString] is enough: more fuel gives the same
    result. *)
Lemma replaceLoop_fuel re src repl fuel fuel' lastMatchEnd searchPos buf :
  length src + 2 <= fuel + searchPos ->
  length src + 2 <= fuel' + searchPos ->
  replaceLoop fuel re src repl lastMatchEnd searchPos buf
  = replaceLoop fuel' re src repl lastMatchEnd searchPos buf.
Proof.
  revert fuel' lastMatchEnd searchPos buf.
  induction fuel as [|fuel IH]; intros fuel' lastMatchEnd searchPos buf H H'.
  - destruct fuel' as [|fuel']; [done|]. cbn [replaceLoop].
    by destruct (Nat.leb_spec searchPos (length src)); [lia|].
  - destruct fuel' as [|fuel'].
    { cbn [replaceLoop].
      by destruct (Nat.leb_spec searchPos (length src)); [lia|]. }
    cbn [replaceLoop].
    destruct (Nat.leb_spec searchPos (length src)); [|done].
    destruct (doExecute re src searchPos) as [[a0 a1]|] eqn:Hexec; [|done].
    apply doExecute_bounds in Hexec as [_ Ha].
    pose proof (searchPos_advances searchPos a1
                  (if searchPos <? length src then 1 else 0) Ha) as Hadv.
    cbv zeta. apply IH; lia.
Qed.

Lemma stripped_subseteq line : stripped line ⊆ line.
Proof.
  intros c H. apply replaceLoop_subseteq in H.
  destruct H as [H|H]; [by apply elem_of_nil in H|done].
Qed.

(** ** [strings.Split] and [strings.Join] *)

Lemma Split_nonempty s sep : strings.Split s sep <> [].
Proof.
  destruct s as [|c s]; simpl; [done|].
  destruct (Ascii.eqb c sep); [done|].
  by destruct (strings.Split s sep).
Qed.

Lemma Split_no_sep s sep :
  Forall (fun line => sep ∉ line) (strings.Split s sep).
Proof.
  induction s as [|c s IH]; simpl.
  - constructor; [apply not_elem_of_nil|constructor].
  - destruct (Ascii.eqb_spec c sep) as [->|Hne].
    + constructor; [apply not_elem_of_nil|done].
    + destruct (strings.Split s sep) as [|l ls].
      * constructor; [|constructor].
        intros H. apply list_elem_of_singleton in H. congruence.
      * inversion IH; subst. constructor; [|done].
        rewrite elem_of_cons. intros [?|?]; [congruence|done].
Qed.

Lemma Split_app_no_sep l s sep :
  sep ∉ l ->
  strings.Split (l ++ sep :: s) sep = l :: strings.Split s sep.
Proof.
  induction l as [|c l IH]; intros Hl; simpl.
  - by rewrite Ascii.eqb_refl.
  - rewrite not_elem_of_cons in Hl. destruct Hl as [Hc Hl].
    destruct (Ascii.eqb_spec c sep) as [->|_]; [done|].
    by rewrite IH.
Qed.

Lemma Split_no_sep_single l sep : sep ∉ l -> strings.Split l sep = [l].
Proof.
  induction l as [|c l IH]; intros Hl; simpl; [done|].
  rewrite not_elem_of_cons in Hl. destruct Hl as [Hc Hl].
  destruct (Ascii.eqb_spec c sep) as [->|_]; [done|].
  by rewrite IH.
Qed.

(** Splitting what [Join] built gives the pieces back, as long as there
    is a piece at all and no piece holds the separator. *)
Lemma Split_Join lines sep :
  lines <> [] -> Forall (fun line => sep ∉ line) lines ->
  strings.Split (strings.Join lines sep) sep = lines.
Proof.
  induction lines as [|l lines IH]; intros Hne Hall; [done|].
  inversion Hall as [|? ? Hl Hls]; subst.
  destruct lines as [|l' lines].
  - simpl. by apply Split_no_sep_single.
  - change (strings.Join (l :: l' :: lines) sep)
      with (l ++ sep :: strings.Join (l' :: lines) sep).
    rewrite Split_app_no_sep by done.
    by rewrite IH.
Qed.

(** ** The store of [extractSections] *)

Lemma wf_heap st :
  wf st ->
  exists front cur,
    st_heap st = front ++ [cur] /\ length front = current st
    /\ load (st_heap st) (current st) = cur.
Proof.
  intros [_ Hlen].
  destruct (st_heap st) as [|x h] eqn:Hh using rev_ind; [done|].
  rewrite length_app in Hlen. simpl in Hlen.
  exists h, x. split; [done|]. split; [lia|].
  unfold load. rewrite lookup_app_r by lia.
  by replace (current st - length h) with 0 by lia.
Qed.

Lemma load_snoc front cur : load (front ++ [cur]) (length front) = cur.
Proof.
  unfold load. rewrite lookup_app_r by lia. by rewrite Nat.sub_diag.
Qed.

Lemma insert_snoc (front : heap) cur v :
  <[length front := v]> (front ++ [cur]) = front ++ [v].
Proof.
  rewrite insert_app_r_alt by lia. by rewrite Nat.sub_diag.
Qed.

Lemma extractInit_wf : wf extractInit.
Proof. by split. Qed.

(** The loop body, case by case, on a store [front ++ [cur]] whose last
    cell is the current section. *)
Lemma extractStep_directive intro line st :
  isDirective line = true -> extractStep intro line st = Next st.
Proof. intros H. unfold extractStep. by rewrite H. Qed.

Lemma extractStep_comment_push intro line st front cur flag :
  isDirective line = false ->
  isInComment (commentSectionInProgress st) line = (true, flag) ->
  st_heap st = front ++ [cur] -> length front = current st ->
  Code cur <> [] ->
  extractStep intro line st =
  Next (mkState (front ++ [cur; mkSection (stripped line ++ [newline]) []])
                (sections st ++ [current st]) (S (current st)) flag).
Proof.
  intros Hd Hc Hh Hlen Hcode. unfold extractStep. rewrite Hd, Hc, Hh.
  rewrite <- Hlen, load_snoc.
  rewrite bool_decide_eq_false_2 by done. cbn [negb new].
  rewrite length_app. cbn [length]. rewrite Nat.add_1_r.
  f_equal. f_equal.
  unfold setDoc.
  replace (front ++ [cur] ++ [zeroSection])
    with ((front ++ [cur]) ++ [zeroSection]) by by rewrite <- app_assoc.
  replace (S (length front)) with (length (front ++ [cur]))
    by (rewrite length_app; simpl; lia).
  rewrite load_snoc, insert_snoc. by rewrite <- app_assoc.
Qed.

Lemma extractStep_comment_same intro line st front cur flag :
  isDirective line = false ->
  isInComment (commentSectionInProgress st) line = (true, flag) ->
  st_heap st = front ++ [cur] -> length front = current st ->
  Code cur = [] ->
  extractStep intro line st =
  Next (mkState
          (front ++ [mkSection (Doc cur ++ stripped line ++ [newline]) []])
          (sections st) (current st) flag).
Proof.
  intros Hd Hc Hh Hlen Hcode. unfold extractStep. rewrite Hd, Hc, Hh.
  rewrite <- Hlen, load_snoc.
  rewrite bool_decide_eq_true_2 by done. cbn [negb].
  f_equal. f_equal.
  unfold setDoc. by rewrite load_snoc, insert_snoc, Hcode.
Qed.

Lemma extractStep_code line st front cur flag :
  isDirective line = false ->
  isInComment (commentSectionInProgress st) line = (false, flag) ->
  st_heap st = front ++ [cur] -> length front = current st ->
  extractStep false line st =
  Next (mkState
          (front ++ [mkSection (Doc cur) (Code cur ++ line ++ [newline])])
          (sections st) (current st) flag).
Proof.
  intros Hd Hc Hh Hlen. unfold extractStep. rewrite Hd, Hc, Hh.
  rewrite <- Hlen. f_equal. f_equal.
  unfold setCode. by rewrite load_snoc, insert_snoc.
Qed.

Lemma extractStep_break line st flag :
  isDirective line = false ->
  isInComment (commentSectionInProgress st) line = (false, flag) ->
  extractStep true line st =
  Break (mkState (st_heap st) (sections st) (current st) flag).
Proof.
  intros Hd Hc. unfold extractStep. by rewrite Hd, Hc.
Qed.

Lemma isInComment_flag flag line :
  exists b flag', isInComment flag line = (b, flag').
Proof. destruct (isInComment flag line); eauto. Qed.

Lemma extractStep_wf intro line st :
  wf st -> wf (outcome_state (extractStep intro line st)).
Proof.
  intros Hwf. destruct (wf_heap st Hwf) as (front & cur & Hh & Hlen & _).
  destruct Hwf as [Hsec Hl].
  destruct (isDirective line) eqn:Hd.
  { rewrite extractStep_directive by done. by split. }
  destruct (isInComment (commentSectionInProgress st) line)
    as [[|] flag] eqn:Hc.
  - destruct (decide (Code cur = [])) as [Hcode|Hcode].
    + erewrite extractStep_comment_same by done. split; simpl; [done|].
      rewrite length_app; simpl; lia.
    + erewrite extractStep_comment_push by done.
      split; cbn [sections current st_heap outcome_state].
      * by rewrite seq_S, Hsec.
      * rewrite length_app; simpl; lia.
  - destruct intro.
    + erewrite extractStep_break by done. by split.
    + erewrite extractStep_code by done. split; simpl; [done|].
      rewrite length_app; simpl; lia.
Qed.

Lemma extractLoop_wf intro lines st : wf st -> wf (extractLoop intro lines st).
Proof.
  revert st. induction lines as [|line lines IH]; intros st Hwf; [done|].
  simpl. pose proof (extractStep_wf intro line st Hwf) as H.
  destruct (extractStep intro line st); simpl in H; [by apply IH|done].
Qed.

Lemma contents_seq h : contents h (seq 0 (length h)) = h.
Proof.
  apply list_eq. intros i. unfold contents. rewrite list_lookup_fmap.
  destruct (h !! i) as [x|] eqn:Hi.
  - assert (i < length h) by by eapply lookup_lt_Some.
    assert (seq 0 (length h) !! i = Some i) as -> by by apply lookup_seq.
    simpl. unfold load. by rewrite Hi.
  - assert (length h <= i) by by apply lookup_ge_None.
    rewrite (proj2 (lookup_ge_None _ _)); [done|].
    by rewrite length_seq.
Qed.

Lemma wf_pointers st :
  wf st -> sections st ++ [current st] = seq 0 (length (st_heap st)).
Proof. intros [Hs Hl]. by rewrite Hl, seq_S, Hs. Qed.

(** The sections returned are the cells of the final store, in order of
    allocation. *)
Lemma extracted_heap intro source :
  extracted intro source =
  st_heap (extractLoop intro (strings.Split source newline) extractInit).
Proof.
  unfold extracted, extractSections.
  rewrite wf_pointers by apply extractLoop_wf, extractInit_wf.
  apply contents_seq.
Qed.

Lemma extractSections_pointers intro source :
  (extractSections intro source).2 =
  seq 0 (length (extractSections intro source).1).
Proof.
  unfold extractSections. simpl.
  apply wf_pointers, extractLoop_wf, extractInit_wf.
Qed.

(** ** The examples of the specification *)

(** C2, as written, does not hold: on the text of the first example the
    extraction (without [-intro]) does not return the three sections the
    claim lists, the last of them empty. *)
Lemma C2_three_sections_refuted :
  extracted false example1 <>
  [ mkSection (gostr "Test comment\nmore comment\n")
              (gostr "\nTest code\nMore code\n\n");
    mkSection (gostr "Second comment\n") (gostr "  Second code snippet\n\n");
    mkSection [] [] ].
Proof. vm_compute. discriminate. Qed.

(** C2, amended: on the text of the first example the extraction (without
    [-intro]) returns exactly two sections, held in the cells 0 and 1 of
    the store.  The first has the doc ["Test comment\nmore comment\n"] and
    the code ["\nTest code\nMore code\n\n"]; the second has the doc
    ["Second comment\n"] and the code ["  Second code snippet\n\n\n"]: the
    empty piece after the last newline of the source adds a third newline
    to that code, and the final [append] pushes this second section, not a
    fresh empty one. *)
Theorem C2_example1_two_sections :
  extractSections false example1 =
  ([ mkSection (gostr "Test comment\nmore comment\n")
               (gostr "\nTest code\nMore code\n\n");
     mkSection (gostr "Second comment\n")
               (gostr "  Second code snippet\n\n\n") ],
   [0; 1]).
Proof. vm_compute. reflexivity. Qed.

(** C8, as written, does not hold: the one section returned for the text
    of the second example does not have an empty code. *)
Lemma C8_empty_code_refuted :
  extracted false example2 <> [ mkSection (gostr "Third\nEnd\n") [] ].
Proof. vm_compute. discriminate. Qed.

(** C8, amended: on the text of the second example the extraction (without
    [-intro]) returns exactly one section; its doc is ["Third\nEnd\n"],
    the comment delimiters stripped, and its code is ["\n"], the newline
    appended for the empty piece that follows the last newline of the
    source. *)
Theorem C8_example2_one_section :
  extractSections false example2 =
  ([ mkSection (gostr "Third\nEnd\n") (gostr "\n") ], [0]).
Proof. vm_compute. reflexivity. Qed.

(** The pointers returned are distinct and allocated. *)
Lemma extractSections_distinct intro source :
  NoDup (extractSections intro source).2
  /\ forall p, p ∈ (extractSections intro source).2 ->
       p < length (extractSections intro source).1.
Proof.
  rewrite extractSections_pointers. split; [apply NoDup_seq|].
  intros p Hp. apply elem_of_seq in Hp. lia.
Qed.

(** ** Pushed sections *)

Lemma inv_wf st : inv st -> wf st.
Proof.
  intros (front & cur & Hh & Hlen & Hs & _). split; [done|].
  rewrite Hh, length_app. simpl. lia.
Qed.

Lemma extractInit_inv : inv extractInit.
Proof. exists [], zeroSection. by repeat split. Qed.

(** One pass through the loop body keeps the invariant and leaves the
    cells of the sections pushed before untouched. *)
Lemma extractStep_inv intro line st :
  inv st ->
  inv (outcome_state (extractStep intro line st))
  /\ forall p, p < current st ->
       st_heap (outcome_state (extractStep intro line st)) !! p
       = st_heap st !! p.
Proof.
  intros (front & cur & Hh & Hlen & Hs & Hall).
  destruct (isDirective line) eqn:Hd.
  { rewrite extractStep_directive by done. split; [|done].
    by exists front, cur. }
  destruct (isInComment (commentSectionInProgress st) line)
    as [[|] flag] eqn:Hc.
  - destruct (decide (Code cur = [])) as [Hcode|Hcode].
    + erewrite extractStep_comment_same by done.
      cbn [outcome_state st_heap]. split.
      * eexists front, _. by repeat split.
      * intros p Hp. rewrite Hh, !lookup_app_l by lia. done.
    + erewrite extractStep_comment_push by done.
      cbn [outcome_state st_heap]. split.
      * exists (front ++ [cur]), (mkSection (stripped line ++ [newline]) []).
        cbn [st_heap sections current]. split; [by rewrite <- app_assoc|].
        split; [rewrite length_app; simpl; lia|].
        split; [by rewrite seq_S, Hs|].
        apply Forall_app. split; [done|]. by constructor.
      * intros p Hp. rewrite Hh, !lookup_app_l by lia. done.
  - destruct intro.
    + erewrite extractStep_break by done. split; [|done].
      by exists front, cur.
    + erewrite extractStep_code by done.
      cbn [outcome_state st_heap]. split.
      * eexists front, _. by repeat split.
      * intros p Hp. rewrite Hh, !lookup_app_l by lia. done.
Qed.

Lemma extractLoop_inv intro lines st : inv st -> inv (extractLoop intro lines st).
Proof.
  revert st. induction lines as [|line lines IH]; intros st Hinv; [done|].
  simpl. pose proof (proj1 (extractStep_inv intro line st Hinv)) as H.
  destruct (extractStep intro line st); simpl in H; [by apply IH|done].
Qed.

(** C10: in the list [extractSections] returns, with or without [-intro],
    every section but the last has a non-empty code, so a section with the
    code [""] can only be the last one.  The reason is in the loop: at any
    line of the source, every section pushed so far has a non-empty code,
    and the pass through the loop body for that line leaves its cell of
    the store as it is. *)
Theorem C10_only_last_code_may_be_empty intro source :
  (forall i p,
     (extractSections intro source).2 !! i = Some p ->
     S i < length (extractSections intro source).2 ->
     Code (load (extractSections intro source).1 p) <> [])
  /\ (forall pre line post p,
        strings.Split source newline = pre ++ line :: post ->
        p ∈ sections (extractLoop intro pre extractInit) ->
        Code (load (st_heap (extractLoop intro pre extractInit)) p) <> []
        /\ st_heap (outcome_state
             (extractStep intro line (extractLoop intro pre extractInit))) !! p
           = st_heap (extractLoop intro pre extractInit) !! p).
Proof.
  split.
  - intros i p Hi Hlt. rewrite extractSections_pointers in Hi, Hlt.
    rewrite length_seq in Hlt. apply lookup_seq in Hi as [-> _].
    unfold extractSections in *. cbn [fst Nat.add] in *.
    destruct (extractLoop_inv intro (strings.Split source newline) extractInit
                extractInit_inv) as (front & cur & Hh & Hlen & Hs & Hall).
    rewrite Hh in *. rewrite length_app in Hlt. simpl in Hlt.
    assert (i < length front) as Hi by lia.
    destruct (lookup_lt_is_Some_2 front i Hi) as [s Hs'].
    unfold load. rewrite lookup_app_l, Hs' by done. simpl.
    by eapply (Forall_lookup_1 _ _ _ _ Hall).
  - intros pre line post p _ Hp.
    pose proof (extractLoop_inv intro pre extractInit extractInit_inv) as Hinv.
    destruct Hinv as (front & cur & Hh & Hlen & Hs & Hall) eqn:E.
    rewrite Hs in Hp. apply elem_of_seq in Hp. split.
    + assert (p < length front) as Hi by lia.
      destruct (lookup_lt_is_Some_2 front p Hi) as [s Hs'].
      unfold load. rewrite Hh, lookup_app_l, Hs' by done. simpl.
      by eapply (Forall_lookup_1 _ _ _ _ Hall).
    + apply extractStep_inv; [|lia]. by exists front, cur.
Qed.

Lemma C10_witness :
  Code (load (extractSections false example1).1 0) <> []
  /\ st_heap (outcome_state
       (extractStep false (gostr "  Second code snippet")
          (extractLoop false (take 7 (strings.Split example1 newline))
             extractInit))) !! 0
     = st_heap (extractLoop false (take 7 (strings.Split example1 newline))
                  extractInit) !! 0.
Proof.
  split.
  - apply (proj1 (C10_only_last_code_may_be_empty false example1) 0 0).
    + vm_compute. reflexivity.
    + vm_compute. lia.
  - apply (proj2 (C10_only_last_code_may_be_empty false example1)
             (take 7 (strings.Split example1 newline))
             (gostr "  Second code snippet") [[]; []] 0).
    + vm_compute. reflexivity.
    + vm_compute. constructor.
Defined.

(** ** The loop without [-intro] *)

Lemma extractStep_false_Next line st :
  extractStep false line st = Next (outcome_state (extractStep false line st)).
Proof.
  unfold extractStep. destruct (isDirective line); [done|].
  destruct (isInComment (commentSectionInProgress st) line) as [[|] flag];
    [|done].
  by destruct (negb _).
Qed.

Lemma extractLoop_false_cons line lines st :
  extractLoop false (line :: lines) st =
  extractLoop false lines (outcome_state (extractStep false line st)).
Proof. simpl. by rewrite extractStep_false_Next. Qed.

Lemma extractLoop_false_app lines1 lines2 st :
  extractLoop false (lines1 ++ lines2) st =
  extractLoop false lines2 (extractLoop false lines1 st).
Proof.
  revert st. induction lines1 as [|line lines1 IH]; intros st; [done|].
  rewrite <- app_comm_cons, !extractLoop_false_cons. apply IH.
Qed.

Lemma extractLoop_false_snoc lines line st :
  extractLoop false (lines ++ [line]) st =
  outcome_state (extractStep false line (extractLoop false lines st)).
Proof.
  rewrite extractLoop_false_app. simpl. by rewrite extractStep_false_Next.
Qed.

(** C1: without [-intro], the extraction starts a new section at a line
    of the source exactly when that line reaches the classifier (it is no
    directive), is classified as a comment, and the code gathered in the
    current section is not empty: then the current section is pushed and a
    fresh cell of the store, holding the stripped line as its doc, becomes
    current.  A line that is not classified as a comment (blank line, code
    line) leaves the pushed sections and the current pointer as they are,
    and a comment line that arrives while the code is empty is appended,
    stripped, to the doc of the current section. *)
Theorem C1_section_split source pre line post :
  strings.Split source newline = pre ++ line :: post ->
  let st := extractLoop false pre extractInit in
  let st' := extractLoop false (pre ++ [line]) extractInit in
  let isComment :=
    notDirective line && (isInComment (commentSectionInProgress st) line).1 in
  let cur := load (st_heap st) (current st) in
  ((sections st' = sections st ++ [current st]
    /\ current st' = length (st_heap st)
    /\ length (st_heap st') = S (length (st_heap st)))
   <-> (isComment = true /\ Code cur <> []))
  /\ (isComment = false ->
      sections st' = sections st /\ current st' = current st
      /\ length (st_heap st') = length (st_heap st))
  /\ (isComment = true -> Code cur = [] ->
      sections st' = sections st /\ current st' = current st
      /\ length (st_heap st') = length (st_heap st)
      /\ load (st_heap st') (current st')
         = mkSection (Doc cur ++ stripped line ++ [newline]) [])
  /\ (isComment = true -> Code cur <> [] ->
      load (st_heap st') (current st')
      = mkSection (stripped line ++ [newline]) []
      /\ load (st_heap st') (current st) = cur).
Proof.
  intros _ st st' isComment cur.
  pose proof (extractLoop_inv false pre extractInit extractInit_inv) as Hinv.
  fold st in Hinv. destruct Hinv as (front & c & Hh & Hlen & Hs & Hall).
  assert (cur = c) as Hcur.
  { unfold cur. by rewrite Hh, <- Hlen, load_snoc. }
  assert (length (st_heap st) = S (current st)) as Hl.
  { rewrite Hh, length_app. simpl. lia. }
  assert (sections st <> sections st ++ [current st]) as Hneq.
  { intros E. apply (f_equal length) in E. rewrite length_app in E.
    simpl in E. lia. }
  unfold st'. rewrite extractLoop_false_snoc. fold st.
  unfold isComment, notDirective.
  destruct (isDirective line) eqn:Hd.
  { rewrite extractStep_directive by done. cbn [outcome_state negb andb].
    split; [|done]. split; [|by intros [? _]]. by intros [? _]. }
  destruct (isInComment (commentSectionInProgress st) line)
    as [[|] flag] eqn:Hc; cbn [negb andb fst].
  - destruct (decide (Code c = [])) as [Hcode|Hcode].
    + erewrite extractStep_comment_same by done.
      cbn [outcome_state sections current st_heap]. rewrite Hcur.
      split; [split; [by intros [? _]|by intros [_ ?]]|].
      split; [done|]. split; [|done]. intros _ _.
      rewrite <- Hlen, load_snoc, Hh, !length_app. done.
    + erewrite extractStep_comment_push by done.
      cbn [outcome_state sections current st_heap]. rewrite Hcur.
      split; [split; [done|]|].
      { intros _. split; [done|]. rewrite Hh, !length_app. simpl. lia. }
      split; [done|]. split; [done|]. intros _ _.
      replace (front ++ [c; mkSection (stripped line ++ [newline]) []])
        with ((front ++ [c]) ++ [mkSection (stripped line ++ [newline]) []])
        by by rewrite <- app_assoc.
      split.
      * replace (S (current st)) with (length (front ++ [c]))
          by (rewrite length_app; simpl; lia).
        apply load_snoc.
      * unfold load. rewrite lookup_app_l
          by (rewrite length_app; simpl; lia).
        by rewrite <- Hlen, lookup_app_r, Nat.sub_diag by lia.
  - erewrite extractStep_code by done.
    cbn [outcome_state sections current st_heap].
    split; [split; [by intros [? _]|by intros [? _]]|].
    split; [|done]. intros _. rewrite Hh, !length_app. done.
Qed.

Lemma C1_witness :
  sections (extractLoop false
              (take 6 (strings.Split example1 newline)
               ++ [gostr "// Second comment"]) extractInit)
  = sections (extractLoop false (take 6 (strings.Split example1 newline))
                extractInit)
    ++ [current (extractLoop false (take 6 (strings.Split example1 newline))
                   extractInit)].
Proof.
  destruct (C1_section_split example1
              (take 6 (strings.Split example1 newline))
              (gostr "// Second comment")
              [gostr "  Second code snippet"; []; []]) as [[_ H] _].
  { vm_compute. reflexivity. }
  destruct H as [H _].
  { split; vm_compute; [reflexivity|discriminate]. }
  exact H.
Defined.

(** ** The text of all sections *)

Lemma joinSections_contents h ps :
  joinSections h ps = concat (sectionText <$> contents h ps).
Proof.
  induction ps as [|p ps IH]; [done|]. simpl. by rewrite IH.
Qed.

Lemma concat_snoc (ls : list gostring) l : concat (ls ++ [l]) = concat ls ++ l.
Proof. by rewrite concat_app; simpl; rewrite app_nil_r. Qed.

Lemma fmap_snoc {A B} (f : A -> B) l x : f <$> (l ++ [x]) = (f <$> l) ++ [f x].
Proof. by rewrite fmap_app. Qed.

(** Each line that is not a directive adds its piece and one newline at
    the end of the text of all sections. *)
Lemma extractLoop_text lines st :
  inv st ->
  concat (sectionText <$> st_heap (extractLoop false lines st)) =
  concat (sectionText <$> st_heap st)
  ++ concat ((fun p => p ++ [newline])
             <$> linePieces (commentSectionInProgress st) lines).
Proof.
  revert st. induction lines as [|line lines IH]; intros st Hinv.
  { simpl. by rewrite app_nil_r. }
  rewrite extractLoop_false_cons.
  pose proof (proj1 (extractStep_inv false line st Hinv)) as Hinv'.
  rewrite (IH _ Hinv'). clear IH Hinv'.
  destruct Hinv as (front & c & Hh & Hlen & Hs & Hall).
  cbn [linePieces].
  destruct (isDirective line) eqn:Hd.
  { by rewrite extractStep_directive by done. }
  destruct (isInComment (commentSectionInProgress st) line)
    as [[|] flag] eqn:Hc.
  - destruct (decide (Code c = [])) as [Hcode|Hcode].
    + erewrite extractStep_comment_same by done.
      cbn [outcome_state st_heap commentSectionInProgress].
      rewrite Hh, !fmap_snoc, !concat_snoc. cbn [fmap list_fmap concat].
      unfold sectionText. cbn [Doc Code]. rewrite Hcode, !app_nil_r.
      by rewrite <- !app_assoc.
    + erewrite extractStep_comment_push by done.
      cbn [outcome_state st_heap commentSectionInProgress].
      replace (front ++ [c; mkSection (stripped line ++ [newline]) []])
        with ((front ++ [c]) ++ [mkSection (stripped line ++ [newline]) []])
        by by rewrite <- app_assoc.
      rewrite Hh, !fmap_snoc, !concat_snoc. cbn [fmap list_fmap concat].
      unfold sectionText. cbn [Doc Code]. rewrite !app_nil_r.
      by rewrite <- !app_assoc.
  - erewrite extractStep_code by done.
    cbn [outcome_state st_heap commentSectionInProgress].
    rewrite Hh, !fmap_snoc, !concat_snoc. cbn [fmap list_fmap concat].
    unfold sectionText. cbn [Doc Code].
    by rewrite <- !app_assoc.
Qed.

Lemma linePieces_length flag lines :
  length (linePieces flag lines) + length (filter isDirective lines)
  = length lines.
Proof.
  revert flag. induction lines as [|line lines IH]; intros flag; [done|].
  cbn [linePieces]. rewrite filter_cons.
  destruct (isDirective line) eqn:Hd.
  - rewrite decide_True by exact I. simpl. rewrite <- (IH flag). lia.
  - rewrite decide_False by (by intros []).
    destruct (isInComment flag line) as [isC flag']. simpl.
    by rewrite IH.
Qed.

Lemma linePieces_no_newline flag lines :
  Forall (fun line => newline ∉ line) lines ->
  Forall (fun p => newline ∉ p) (linePieces flag lines).
Proof.
  intros Hall. revert flag.
  induction Hall as [|line lines Hl _ IH]; intros flag; [constructor|].
  cbn [linePieces]. destruct (isDirective line); [apply IH|].
  destruct (isInComment flag line) as [[|] flag']; constructor; try apply IH.
  - intros H. by apply stripped_subseteq in H.
  - done.
Qed.

Lemma Count_app s t c :
  strings.Count (s ++ t) c = strings.Count s c + strings.Count t c.
Proof. induction s as [|x s IH]; simpl; [done|]. rewrite IH. lia. Qed.

Lemma Count_absent s c : c ∉ s -> strings.Count s c = 0.
Proof.
  induction s as [|x s IH]; simpl; [done|].
  rewrite not_elem_of_cons. intros [Hne Hs].
  destruct (Ascii.eqb_spec x c); [congruence|]. by rewrite IH.
Qed.

Lemma Count_pieces (ps : list gostring) c :
  Forall (fun p => c ∉ p) ps ->
  strings.Count (concat ((fun p => p ++ [c]) <$> ps)) c = length ps.
Proof.
  induction 1 as [|p ps Hp _ IH]; [done|].
  rewrite fmap_cons. cbn [concat length].
  rewrite !Count_app, Count_absent, IH by done.
  cbn [strings.Count]. rewrite Ascii.eqb_refl. lia.
Qed.

(** C3: without [-intro], every line of the source that is not a
    directive leaves exactly one piece (the stripped line for a comment
    line, the line itself otherwise), no piece holds a newline, and the
    docs and codes of the returned sections, concatenated in order, are
    these pieces in the order of the lines, each followed by one newline.
    Hence the number of newline-terminated lines in that text is the
    number of lines the source splits into minus the number of directive
    lines. *)
Theorem C3_line_count source :
  let lines := strings.Split source newline in
  let pieces := linePieces commentFinder lines in
  let text :=
    joinSections (extractSections false source).1
                 (extractSections false source).2 in
  text = concat ((fun p => p ++ [newline]) <$> pieces)
  /\ length pieces = length lines - length (filter isDirective lines)
  /\ Forall (fun p => newline ∉ p) pieces
  /\ strings.Count text newline
     = length lines - length (filter isDirective lines).
Proof.
  intros lines pieces text.
  assert (text = concat ((fun p => p ++ [newline]) <$> pieces)) as Htext.
  { unfold text. rewrite joinSections_contents.
    change (contents _ _) with (extracted false source).
    rewrite extracted_heap.
    by rewrite (extractLoop_text _ _ extractInit_inv). }
  assert (length pieces = length lines - length (filter isDirective lines))
    as Hlen.
  { pose proof (linePieces_length commentFinder lines). unfold pieces. lia. }
  assert (Forall (fun p => newline ∉ p) pieces) as Hnl.
  { apply linePieces_no_newline, Split_no_sep. }
  repeat split; try done.
  by rewrite Htext, Count_pieces.
Qed.

(** ** Directives *)

Lemma filter_notDirective_cons line lines :
  filter notDirective (line :: lines) =
  if isDirective line then filter notDirective lines
  else line :: filter notDirective lines.
Proof.
  rewrite filter_cons.
  destruct (decide (notDirective line)) as [H|H];
    unfold notDirective in H; by destruct (isDirective line).
Qed.

Lemma extractLoop_filter intro lines st :
  extractLoop intro lines st = extractLoop intro (filter notDirective lines) st.
Proof.
  revert st. induction lines as [|line lines IH]; intros st; [done|].
  rewrite filter_notDirective_cons.
  destruct (isDirective line) eqn:Hd.
  - simpl. rewrite extractStep_directive by done. apply IH.
  - simpl. destruct (extractStep intro line st); [apply IH|done].
Qed.

Lemma Forall_filter_notDirective (P : gostring -> Prop) lines :
  Forall P lines -> Forall P (filter notDirective lines).
Proof.
  induction 1 as [|line lines Hl _ IH]; [constructor|].
  rewrite filter_notDirective_cons.
  destruct (isDirective line); [done|by constructor].
Qed.

(** C5, as written, does not hold: for a source made of directive lines
    only, with no newline after the last one, deleting the directive lines
    leaves the empty text, whose single empty line gives the section the
    code ["\n"], whereas the source itself gives it the code [""]. *)
Lemma C5_deleted_source_refuted :
  ~ (forall intro source,
       extractSections intro source
       = extractSections intro (deleteDirectives source)).
Proof.
  intros H. specialize (H false (gostr "//go:generate foo")).
  vm_compute in H. discriminate H.
Qed.

(** C5, amended: a directive line is skipped before the classifier sees
    it, so the extraction (with or without [-intro]) is the run of the
    loop over the lines of the source that are not directives; and it
    equals the extraction of the source text with all directive lines
    deleted whenever at least one line of the source is not a directive. *)
Theorem C5_directives_dropped intro source :
  extractLoop intro (strings.Split source newline) extractInit
  = extractLoop intro (filter notDirective (strings.Split source newline))
      extractInit
  /\ (filter notDirective (strings.Split source newline) <> [] ->
      extractSections intro source
      = extractSections intro (deleteDirectives source)).
Proof.
  split; [apply extractLoop_filter|].
  intros Hne. unfold extractSections, deleteDirectives.
  rewrite Split_Join.
  - by rewrite <- extractLoop_filter.
  - done.
  - apply Forall_filter_notDirective, Split_no_sep.
Qed.

Lemma C5_witness :
  extractSections false (gostr "/* a\n//go:generate foo\nb */\nc")
  = extractSections false
      (deleteDirectives (gostr "/* a\n//go:generate foo\nb */\nc")).
Proof.
  apply (proj2 (C5_directives_dropped false
                  (gostr "/* a\n//go:generate foo\nb */\nc"))).
  vm_compute. discriminate.
Defined.

(** ** The intro text *)

Lemma extractLoop_intro_block pre line post st c flag :
  st_heap st = [c] -> current st = 0 -> sections st = [] -> Code c = [] ->
  commentBlock (commentSectionInProgress st) pre = Some flag ->
  isDirective line = false ->
  (isInComment flag line).1 = false ->
  extractLoop true (pre ++ line :: post) st =
  mkState
    [mkSection
       (Doc c ++ concat ((fun l => stripped l ++ [newline])
                         <$> filter notDirective pre)) []]
    [] 0 (isInComment flag line).2.
Proof.
  revert st c. induction pre as [|l pre IH]; intros st c Hh Hcur Hs Hc Hb Hd Hl.
  - simpl in Hb. injection Hb as <-. cbn [app extractLoop].
    destruct (isInComment (commentSectionInProgress st) line)
      as [b flag'] eqn:E. simpl in Hl. subst b.
    erewrite extractStep_break by done.
    rewrite Hh, Hs, Hcur. simpl. rewrite app_nil_r.
    destruct c as [d cd]. simpl in Hc. by subst cd.
  - rewrite <- app_comm_cons. cbn [extractLoop].
    cbn [commentBlock] in Hb. rewrite filter_notDirective_cons.
    destruct (isDirective l) eqn:Hdl.
    + rewrite extractStep_directive by done. by apply IH.
    + destruct (isInComment (commentSectionInProgress st) l)
        as [[|] flag'] eqn:E; [|done].
      erewrite (extractStep_comment_same true l st [] c) by done.
      rewrite app_nil_l.
      erewrite IH; [|reflexivity|done|done|done|done|done|done].
      cbn [Doc]. rewrite fmap_cons. cbn [concat].
      by rewrite <- !app_assoc.
Qed.

(** C6: when the lines of the source before some line [line] are, apart
    from directives, all classified as comments, and [line] is the first
    line that is not (and no directive), the extraction with [-intro]
    stops at [line] without appending it and returns exactly one section:
    its doc is the stripped text of that leading comment block, its code
    is empty.  Whatever lines [post] follow plays no part in the result. *)
Theorem C6_intro_only source pre line post flag :
  strings.Split source newline = pre ++ line :: post ->
  commentBlock commentFinder pre = Some flag ->
  isDirective line = false ->
  (isInComment flag line).1 = false ->
  extractSections true source =
  ([mkSection (concat ((fun l => stripped l ++ [newline])
                       <$> filter notDirective pre)) []],
   [0]).
Proof.
  intros Hsplit Hb Hd Hl. unfold extractSections. rewrite Hsplit.
  by erewrite (extractLoop_intro_block pre line post extractInit zeroSection).
Qed.

Lemma C6_witness :
  extractSections true (gostr "// a\n/* b\n c */\nx\n// d") =
  ([mkSection (gostr "a\nb\n c\n") []], [0]).
Proof.
  apply (C6_intro_only (gostr "// a\n/* b\n c */\nx\n// d")
           [gostr "// a"; gostr "/* b"; gostr " c */"] (gostr "x")
           [gostr "// d"] false).
  - vm_compute. reflexivity.
  - vm_compute. reflexivity.
  - vm_compute. reflexivity.
  - vm_compute. reflexivity.
Defined.

(** ** The unterminated block comment *)

Lemma isInComment_start flag line :
  matches commentStart line = true -> isInComment flag line = (true, true).
Proof.
  intros H. pose proof (commentStart_not_comment line H) as H'.
  unfold isInComment. fold (matches comment line). rewrite H'.
  fold (matches commentStart line). by rewrite H.
Qed.

Lemma isInComment_inside line :
  matches comment line = false ->
  matches commentStart line = false ->
  matches commentEnd line = false ->
  isInComment true line = (true, true).
Proof.
  intros H1 H2 H3. unfold isInComment.
  fold (matches comment line). rewrite H1.
  fold (matches commentStart line). rewrite H2.
  fold (matches commentEnd line). by rewrite H3.
Qed.

Lemma finderState_snoc flag lines line :
  finderState flag (lines ++ [line])
  = (isInComment (finderState flag lines) line).2.
Proof. unfold finderState. by rewrite fold_left_app. Qed.

Lemma finderState_inside lines :
  Forall (fun x => matches comment x = false
                   /\ matches commentStart x = false
                   /\ matches commentEnd x = false) lines ->
  finderState true lines = true.
Proof.
  induction lines as [|x lines IH] using rev_ind; intros Hall; [done|].
  apply Forall_app in Hall as [Hl Hx]. inversion Hx as [|? ? (H1 & H2 & H3) _].
  subst. rewrite finderState_snoc, IH by done.
  by rewrite isInComment_inside.
Qed.

(** C9: take any sequence of lines fed to the classifier, from any state,
    in which the block-comment start pattern matches some line [line] and
    none of the three patterns (single-line comment, block start, block
    end) matches a later line.  Then the classifier is in the state
    "inside a block comment" right after [line] and after every later
    line up to the end of the input, and it answers "comment" for every
    line after [line]. *)
Theorem C9_unterminated_block flag0 pre line post :
  matches commentStart line = true ->
  Forall (fun x => matches comment x = false
                   /\ matches commentStart x = false
                   /\ matches commentEnd x = false) post ->
  finderState flag0 (pre ++ [line]) = true
  /\ finderState flag0 (pre ++ line :: post) = true
  /\ forall k x,
       post !! k = Some x ->
       finderState flag0 (pre ++ line :: take k post) = true
       /\ isInComment (finderState flag0 (pre ++ line :: take k post)) x
          = (true, true).
Proof.
  intros Hstart Hpost.
  assert (finderState flag0 (pre ++ [line]) = true) as H0.
  { by rewrite finderState_snoc, isInComment_start. }
  assert (forall lines,
            Forall (fun x => matches comment x = false
                             /\ matches commentStart x = false
                             /\ matches commentEnd x = false) lines ->
            finderState flag0 (pre ++ line :: lines) = true) as Hrun.
  { intros lines Hall.
    replace (pre ++ line :: lines) with ((pre ++ [line]) ++ lines)
      by by rewrite <- app_assoc.
    unfold finderState in *. rewrite fold_left_app, H0.
    by apply finderState_inside. }
  split; [done|]. split; [by apply Hrun|].
  intros k x Hk.
  assert (finderState flag0 (pre ++ line :: take k post) = true) as Hk'.
  { apply Hrun, Forall_take, Hpost. }
  split; [done|]. rewrite Hk'.
  destruct (Forall_lookup_1 _ _ _ _ Hpost Hk) as (H1 & H2 & H3).
  by apply isInComment_inside.
Qed.

Lemma C9_witness :
  finderState false
    [gostr "x"; gostr "/* open"; gostr "still inside"; []; gostr "code?"]
  = true.
Proof.
  refine (proj1 (proj2
    (C9_unterminated_block false [gostr "x"] (gostr "/* open")
       [gostr "still inside"; []; gostr "code?"] _ _))).
  - vm_compute. reflexivity.
  - repeat constructor.
Defined.

(** ** UTF-8 decoding *)

Lemma Decode_decodeAt c0 t :
  utf8.DecodeRuneInString (c0 :: t) =
  decodeAt (length (c0 :: t)) (N_of_ascii c0)
    (byteAt (c0 :: t) 1) (byteAt (c0 :: t) 2) (byteAt (c0 :: t) 3).
Proof. reflexivity. Qed.

Lemma IsSpace_RuneError : unicode.IsSpace utf8.RuneError = false.
Proof. reflexivity. Qed.

Ltac first_cases s0 :=
  unfold decodeAt, utf8.first;
  destruct (s0 <? 128)%N eqn:?; [|
  destruct (s0 <? 194)%N eqn:?; [|
  destruct (s0 <? 224)%N eqn:?; [|
  destruct (s0 =? 224)%N eqn:?; [|
  destruct (s0 <? 237)%N eqn:?; [|
  destruct (s0 =? 237)%N eqn:?; [|
  destruct (s0 <? 240)%N eqn:?; [|
  destruct (s0 =? 240)%N eqn:?; [|
  destruct (s0 <? 244)%N eqn:?; [|
  destruct (s0 =? 244)%N eqn:?]]]]]]]]].

Ltac kill_error :=
  match goal with
  | H : (utf8.RuneError, _) = (?r, _), Hs : unicode.IsSpace ?r = true |- _ =>
      injection H as <- <-; rewrite IsSpace_RuneError in Hs; discriminate Hs
  end.

(** The width of a decoded rune lies between 1 and the length. *)
Lemma decodeAt_width len s0 s1 s2 s3 r n :
  1 <= len -> decodeAt len s0 s1 s2 s3 = (r, n) -> 1 <= n <= len.
Proof.
  intros Hlen.
  first_cases s0; cbn [Nat.leb];
    repeat match goal with
    | |- context [if ?len <? ?k then _ else _] =>
        destruct (Nat.ltb_spec len k)
    | |- context [if ?b then _ else _] => destruct b
    end;
    intros [= <- <-]; lia.
Qed.

(** A rune that is white space was decoded from a complete sequence: its
    width is within the string, the bytes after the first are
    continuation bytes, and only the bytes of the sequence were looked
    at. *)
Lemma decodeAt_valid len s0 s1 s2 s3 r n :
  1 <= len ->
  decodeAt len s0 s1 s2 s3 = (r, n) -> unicode.IsSpace r = true ->
  1 <= n <= 4 /\ n <= len
  /\ (2 <= n -> (128 <= s1)%N) /\ (3 <= n -> (128 <= s2)%N)
  /\ (4 <= n -> (128 <= s3)%N)
  /\ forall len' s1' s2' s3',
       n <= len' ->
       (2 <= n -> s1' = s1) -> (3 <= n -> s2' = s2) -> (4 <= n -> s3' = s3) ->
       decodeAt len' s0 s1' s2' s3' = (r, n).
Proof.
  intros Hlen Hdec Hsp. revert Hdec.
  first_cases s0; cbn [Nat.leb];
    repeat match goal with
    | |- context [if ?len <? ?k then _ else _] =>
        destruct (Nat.ltb_spec len k)
    | |- context [if (?a <? ?b)%N || (?c <? ?d)%N then _ else _] =>
        let E := fresh "E" in
        destruct ((a <? b)%N || (c <? d)%N) eqn:E;
        [|apply orb_false_elim in E as [?%N.ltb_ge ?%N.ltb_ge]]
    end;
    intros Hdec; try kill_error; injection Hdec as <- <-;
    (split; [lia|]); (split; [lia|]);
    (split; [unfold utf8.locb in *; lia|]);
    (split; [unfold utf8.locb in *; lia|]);
    (split; [unfold utf8.locb in *; lia|]);
    intros len' s1' s2' s3' Hlen' Hs1 Hs2 Hs3;
    try (rewrite Hs1 by lia); try (rewrite Hs2 by lia);
    try (rewrite Hs3 by lia);
    repeat match goal with
    | |- context [if ?len <? ?k then _ else _] =>
        destruct (Nat.ltb_spec len k); [lia|]
    | |- context [if (?a <? ?b)%N || (?c <? ?d)%N then _ else _] =>
        replace ((a <? b)%N || (c <? d)%N) with false
          by (symmetry; apply orb_false_intro; apply N.ltb_ge; done)
    end; reflexivity.
Qed.

Lemma byteAt_app_l (a b : gostring) i :
  i < length a -> byteAt (a ++ b) i = byteAt a i.
Proof. intros H. unfold byteAt. by rewrite lookup_app_l. Qed.

Lemma byteAt_snoc (a : gostring) c :
  byteAt (a ++ [c]) (length a) = N_of_ascii c.
Proof.
  unfold byteAt. by rewrite lookup_app_r, Nat.sub_diag by lia.
Qed.

Lemma Decode_width s r n :
  s <> [] -> utf8.DecodeRuneInString s = (r, n) -> 1 <= n <= length s.
Proof.
  destruct s as [|c0 t]; [done|]. intros _. rewrite Decode_decodeAt.
  apply decodeAt_width. simpl. lia.
Qed.

Lemma Decode_space_nonempty s r n :
  utf8.DecodeRuneInString s = (r, n) -> unicode.IsSpace r = true -> s <> [].
Proof. intros H Hs ->. injection H as <- <-. done. Qed.

(** What follows a complete sequence does not change what is decoded. *)
Lemma Decode_app a b r n :
  utf8.DecodeRuneInString a = (r, n) -> unicode.IsSpace r = true ->
  utf8.DecodeRuneInString (a ++ b) = (r, n).
Proof.
  intros Hdec Hsp. pose proof (Decode_space_nonempty _ _ _ Hdec Hsp) as Hne.
  destruct a as [|c0 t]; [done|]. rewrite <- app_comm_cons.
  rewrite Decode_decodeAt in Hdec |- *.
  apply decodeAt_valid in Hdec as (Hn & Hlen & _ & _ & _ & Hext);
    [|simpl; lia|done].
  apply Hext.
  - rewrite app_comm_cons, length_app. lia.
  - intros. rewrite app_comm_cons. apply byteAt_app_l. lia.
  - intros. rewrite app_comm_cons. apply byteAt_app_l. lia.
  - intros. rewrite app_comm_cons. apply byteAt_app_l. lia.
Qed.

(** A white-space rune decoded at the head of [a ++ [c]], [c] an ASCII
    byte and [a] not empty, lies within [a]. *)
Lemma Decode_snoc_ascii a c r n :
  a <> [] -> (N_of_ascii c < 128)%N ->
  utf8.DecodeRuneInString (a ++ [c]) = (r, n) -> unicode.IsSpace r = true ->
  utf8.DecodeRuneInString a = (r, n).
Proof.
  intros Hne Hc Hdec Hsp.
  destruct a as [|c0 t]; [done|]. rewrite <- app_comm_cons in Hdec.
  rewrite Decode_decodeAt in Hdec |- *. rewrite !app_comm_cons in Hdec.
  apply decodeAt_valid in Hdec as (Hn & Hlen & H2 & H3 & H4 & Hext);
    [|rewrite length_app; simpl; lia|done].
  rewrite length_app in Hlen. change (length [c]) with 1 in Hlen.
  assert (1 <= length (c0 :: t)) as Hpos by (simpl; lia).
  assert (n <= length (c0 :: t)) as Hin.
  { pose proof (byteAt_snoc (c0 :: t) c) as Hb.
    remember (length (c0 :: t)) as k eqn:Hk. clear Hk.
    destruct (decide (n <= k)) as [|Hgt]; [done|exfalso].
    assert (k = 1 \/ k = 2 \/ k = 3) as [-> | [-> | ->]] by lia.
    - specialize (H2 ltac:(lia)). rewrite Hb in H2. lia.
    - specialize (H3 ltac:(lia)). rewrite Hb in H3. lia.
    - specialize (H4 ltac:(lia)). rewrite Hb in H4. lia. }
  apply Hext; [done|..]; intros; symmetry; apply byteAt_app_l; lia.
Qed.

Lemma Decode_ascii c s :
  (N_of_ascii c < 128)%N ->
  utf8.DecodeRuneInString (c :: s) = (N_of_ascii c, 1).
Proof.
  intros Hc. rewrite Decode_decodeAt. unfold decodeAt, utf8.first.
  by rewrite (proj2 (N.ltb_lt _ _) Hc).
Qed.

(** ** The runes of a string *)

Lemma runesFrom_fuels fuel fuel' s :
  length s <= fuel -> length s <= fuel' ->
  runesFrom fuel s = runesFrom fuel' s.
Proof.
  revert fuel' s.
  induction fuel as [|fuel IH]; intros fuel' s Hlen Hlen'.
  { destruct s; [by destruct fuel'|simpl in Hlen; lia]. }
  destruct s as [|c t]; [by destruct fuel'|].
  destruct fuel' as [|fuel']; [simpl in Hlen'; lia|].
  cbn [runesFrom].
  destruct (utf8.DecodeRuneInString (c :: t)) as [r n] eqn:Hdec.
  apply Decode_width in Hdec as Hn; [|done].
  f_equal. simpl in Hlen, Hlen', Hn.
  apply IH; rewrite length_drop; simpl; lia.
Qed.

Lemma runesFrom_fuel fuel s :
  length s <= fuel -> runesFrom fuel s = runesFrom (length s) s.
Proof. intros H. by apply runesFrom_fuels. Qed.

Lemma runes_cons s r n :
  s <> [] -> utf8.DecodeRuneInString s = (r, n) ->
  runes s = r :: runes (drop n s).
Proof.
  intros Hne Hdec. unfold runes. destruct s as [|c t]; [done|].
  cbn [runesFrom length]. rewrite Hdec. f_equal.
  apply Decode_width in Hdec as Hn; [|done].
  apply runesFrom_fuel. rewrite length_drop. simpl in *. lia.
Qed.

Lemma onlyWhitespace_cons s r n :
  s <> [] -> utf8.DecodeRuneInString s = (r, n) ->
  onlyWhitespace s = unicode.IsSpace r && onlyWhitespace (drop n s).
Proof.
  intros Hne Hdec. unfold onlyWhitespace. by erewrite runes_cons.
Qed.

Lemma onlyWhitespace_ascii c s :
  (N_of_ascii c < 128)%N ->
  onlyWhitespace (c :: s)
  = unicode.IsSpace (N_of_ascii c) && onlyWhitespace s.
Proof.
  intros Hc. by erewrite onlyWhitespace_cons by (done || by apply Decode_ascii).
Qed.

(** [indexFunc(s, f, false)] is -1 exactly when [f] holds of all runes. *)

(** ** [strings.TrimSpace] *)

(** [indexFunc(s, f, false)] is -1 exactly when [f] holds of all runes;
    otherwise it is the offset of a rune of which [f] does not hold. *)
Lemma indexFuncFrom_spec fuel s f i :
  match strings.indexFuncFrom fuel s f false i with
  | None => forallb f (runesFrom fuel s) = true
  | Some j =>
      forallb f (runesFrom fuel s) = false
      /\ exists k, j = i + k /\ k < length s
                   /\ f (utf8.DecodeRuneInString (drop k s)).1 = false
  end.
Proof.
  revert s i. induction fuel as [|fuel IH]; intros s i; [done|].
  destruct s as [|c t]; [done|].
  cbn [strings.indexFuncFrom runesFrom].
  destruct (utf8.DecodeRuneInString (c :: t)) as [r n] eqn:Hdec.
  apply Decode_width in Hdec as Hn; [|done].
  cbn [forallb]. destruct (f r) eqn:Hf; cbn [Bool.eqb andb].
  - specialize (IH (drop n (c :: t)) (i + n)).
    destruct (strings.indexFuncFrom fuel (drop n (c :: t)) f false (i + n))
      as [j|]; [|done].
    destruct IH as (Hfalse & k & -> & Hk & Hfk). split; [done|].
    exists (n + k). rewrite length_drop in Hk.
    split; [lia|]. split; [lia|]. by rewrite <- drop_drop.
  - split; [done|]. exists 0. rewrite drop_0, Hdec.
    split; [lia|]. split; [simpl; lia|done].
Qed.

Lemma TrimLeftFunc_spec s f :
  (strings.TrimLeftFunc s f = [] /\ forallb f (runes s) = true)
  \/ (strings.TrimLeftFunc s f <> []
      /\ forallb f (runes s) = false
      /\ f (utf8.DecodeRuneInString (strings.TrimLeftFunc s f)).1 = false).
Proof.
  unfold strings.TrimLeftFunc, strings.indexFunc, runes.
  pose proof (indexFuncFrom_spec (length s) s f 0) as H.
  destruct (strings.indexFuncFrom (length s) s f false 0) as [j|].
  - right. destruct H as (Hfalse & k & -> & Hk & Hfk). cbn [Nat.add].
    split; [|done]. intros E. apply (f_equal length) in E.
    rewrite length_drop in E. simpl in E. lia.
  - by left.
Qed.

(** The last rune, when it is white space, is decoded from the last
    bytes of the string. *)
Lemma DecodeLast_space s r n :
  utf8.DecodeLastRuneInString s = (r, n) -> unicode.IsSpace r = true ->
  1 <= n <= length s
  /\ utf8.DecodeRuneInString (drop (length s - n) s) = (r, n).
Proof.
  unfold utf8.DecodeLastRuneInString.
  destruct (length s) as [|start] eqn:Hlen.
  { intros [= <- <-]. done. }
  destruct (byteAt s start <? utf8.RuneSelf)%N eqn:Hascii.
  - intros [= <- <-] _. split; [lia|].
    replace (S start - 1) with start by lia.
    assert (length (drop start s) = 1) as Hd by (rewrite length_drop; lia).
    destruct (drop start s) as [|x [|y l]] eqn:E; try done.
    assert (s !! start = Some x) as Hx.
    { rewrite <- (Nat.add_0_r start), <- lookup_drop, E. done. }
    unfold byteAt in *. rewrite Hx in *.
    apply Decode_ascii. by apply N.ltb_lt.
  - set (start'' := default 0 _).
    destruct (utf8.DecodeRuneInString (slice s start'' (S start)))
      as [r0 size] eqn:Hdec.
    destruct (start'' + size =? S start) eqn:Hend; cbn [negb].
    + intros [= <- <-] Hsp. apply Nat.eqb_eq in Hend.
      assert (slice s start'' (S start) = drop start'' s) as Hslice.
      { unfold slice. apply take_ge. rewrite length_drop. lia. }
      rewrite Hslice in Hdec.
      pose proof (Decode_space_nonempty _ _ _ Hdec Hsp) as Hne.
      apply Decode_width in Hdec as Hn; [|done].
      split; [lia|]. by replace (S start - size) with start'' by lia.
    + intros [= <- <-] Hsp. done.
Qed.

(** When [lastIndexFunc] finds white space all the way down, the string
    is empty or starts with a white-space rune. *)
Lemma lastIndexFuncFrom_None fuel s i :
  i <= length s -> i <= fuel ->
  strings.lastIndexFuncFrom fuel s unicode.IsSpace false i = None ->
  take i s = []
  \/ unicode.IsSpace (utf8.DecodeRuneInString (take i s)).1 = true.
Proof.
  revert i. induction fuel as [|fuel IH]; intros i Hi Hfuel.
  { replace i with 0 by lia. by left. }
  cbn [strings.lastIndexFuncFrom].
  destruct (Nat.ltb_spec 0 i) as [Hpos|]; [|replace i with 0 by lia; by left].
  destruct (utf8.DecodeLastRuneInString (take i s)) as [r size] eqn:Hlast.
  destruct (unicode.IsSpace r) eqn:Hsp; cbn [Bool.eqb]; [|done].
  apply DecodeLast_space in Hlast as [Hsize Hdec]; [|done].
  rewrite length_take, Nat.min_l in Hsize, Hdec by done.
  intros Hrec. apply IH in Hrec; [|lia..]. right.
  assert (take i s = take (i - size) s ++ drop (i - size) (take i s)) as E.
  { rewrite <- (take_drop (i - size) (take i s)) at 1.
    by rewrite take_take, Nat.min_l by lia. }
  destruct Hrec as [Hnil|Hfirst].
  - rewrite E, Hnil, app_nil_l, Hdec. done.
  - destruct (utf8.DecodeRuneInString (take (i - size) s)) as [r' n'] eqn:Hd'.
    rewrite E. by erewrite Decode_app.
Qed.

Lemma TrimRightFunc_nonempty s :
  s <> [] ->
  unicode.IsSpace (utf8.DecodeRuneInString s).1 = false ->
  strings.TrimRightFunc s unicode.IsSpace <> [].
Proof.
  intros Hne Hfirst. unfold strings.TrimRightFunc, strings.lastIndexFunc.
  destruct (strings.lastIndexFuncFrom (length s) s unicode.IsSpace false
              (length s)) as [i|] eqn:Hlast.
  - assert (length s <> 0) as Hlen by by destruct s.
    destruct (utf8.RuneSelf <=? byteAt s i)%N eqn:Hb.
    + destruct (utf8.DecodeRuneInString (drop i s)) as [r wid] eqn:Hdec.
      assert (drop i s <> []) as Hd.
      { intros E. apply (f_equal length) in E. rewrite length_drop in E.
        simpl in E. unfold byteAt in Hb.
        rewrite (proj2 (lookup_ge_None s i)) in Hb by lia. done. }
      apply Decode_width in Hdec; [|done].
      intros E. apply (f_equal length) in E. rewrite length_take in E.
      simpl in E. lia.
    + intros E. apply (f_equal length) in E. rewrite length_take in E.
      simpl in E. lia.
  - apply lastIndexFuncFrom_None in Hlast; [|lia..].
    rewrite take_ge in Hlast by lia. destruct Hlast; congruence.
Qed.

(** [TrimSpace] returns the empty string exactly for the strings whose
    runes are all white space. *)
Lemma TrimSpace_empty s :
  strings.TrimSpace s = [] <-> onlyWhitespace s = true.
Proof.
  unfold strings.TrimSpace, strings.TrimFunc, onlyWhitespace.
  destruct (TrimLeftFunc_spec s unicode.IsSpace) as [[E H]|(Hne & H & Hf)].
  - rewrite E, H. split; [done|]. intros _. reflexivity.
  - rewrite H. split; [|done]. intros E.
    by apply TrimRightFunc_nonempty in E.
Qed.

(** Newlines around a text do not change whether it is white space only. *)
Lemma onlyWhitespace_snoc_newline t :
  onlyWhitespace (t ++ [newline]) = onlyWhitespace t.
Proof.
  remember (length t) as k eqn:Hk. revert t Hk.
  induction k as [k IH] using lt_wf_ind. intros t Hk.
  destruct (decide (t = [])) as [->|Hne]; [done|].
  destruct (utf8.DecodeRuneInString t) as [r n] eqn:Hdec.
  apply Decode_width in Hdec as Hn; [|done].
  rewrite (onlyWhitespace_cons t r n) by done.
  destruct (unicode.IsSpace r) eqn:Hsp; cbn [andb].
  - rewrite (onlyWhitespace_cons (t ++ [newline]) r n);
      [|by destruct t|by apply Decode_app].
    rewrite Hsp, drop_app_le by lia. cbn [andb].
    apply (IH (length (drop n t))); [rewrite length_drop; lia|done].
  - destruct (utf8.DecodeRuneInString (t ++ [newline])) as [r' n'] eqn:Hdec'.
    rewrite (onlyWhitespace_cons (t ++ [newline]) r' n');
      [|by destruct t|done].
    destruct (unicode.IsSpace r') eqn:Hsp'; [|done].
    apply Decode_snoc_ascii in Hdec'; [|done|done|done]. congruence.
Qed.

Lemma inCutset_newline c :
  strings.inCutset (gostr "\n") c = true -> c = newline.
Proof.
  unfold strings.inCutset. cbn [gostr existsb]. rewrite orb_false_r.
  by intros ?%Ascii.eqb_eq.
Qed.

Lemma onlyWhitespace_dropWhile_newline s :
  onlyWhitespace (strings.dropWhile (strings.inCutset (gostr "\n")) s)
  = onlyWhitespace s.
Proof.
  induction s as [|c s IH]; [done|]. cbn [strings.dropWhile].
  destruct (strings.inCutset (gostr "\n") c) eqn:Hc; [|done].
  apply inCutset_newline in Hc as ->. by rewrite IH.
Qed.

Lemma onlyWhitespace_rev_dropWhile_newline l :
  onlyWhitespace (rev (strings.dropWhile (strings.inCutset (gostr "\n")) l))
  = onlyWhitespace (rev l).
Proof.
  induction l as [|c l IH]; [done|]. cbn [strings.dropWhile].
  destruct (strings.inCutset (gostr "\n") c) eqn:Hc; [|done].
  apply inCutset_newline in Hc as ->. cbn [rev].
  by rewrite onlyWhitespace_snoc_newline.
Qed.

Lemma onlyWhitespace_Trim_newline s :
  onlyWhitespace (strings.Trim s (gostr "\n")) = onlyWhitespace s.
Proof.
  unfold strings.Trim, strings.TrimLeft, strings.TrimRight.
  rewrite onlyWhitespace_dropWhile_newline.
  by rewrite onlyWhitespace_rev_dropWhile_newline, rev_involutive.
Qed.

(** For a text of ASCII bytes, white space only means: every byte is a
    tab, a newline, a vertical tab, a form feed, a carriage return or a
    blank. *)
Lemma onlyWhitespace_ascii_text s :
  Forall (fun c => (N_of_ascii c < 128)%N) s ->
  onlyWhitespace s = forallb (fun c => unicode.IsSpace (N_of_ascii c)) s.
Proof.
  induction 1 as [|c s Hc _ IH]; [done|].
  rewrite onlyWhitespace_ascii by done. cbn [forallb]. by rewrite IH.
Qed.

(** The test of [highlightCode]. *)
Lemma highlight_test s :
  negb (bool_decide (strings.TrimSpace (strings.Trim s (gostr "\n")) = []))
  = negb (onlyWhitespace s).
Proof.
  f_equal. rewrite <- (onlyWhitespace_Trim_newline s).
  destruct (onlyWhitespace (strings.Trim s (gostr "\n"))) eqn:E.
  - apply bool_decide_eq_true_2. by apply TrimSpace_empty.
  - apply bool_decide_eq_false_2. intros H%TrimSpace_empty. congruence.
Qed.

(** ** [splitLeadingWs] *)

Lemma inCutset_tab_space c :
  strings.inCutset (gostr "\t ") c = isSpaceOrTab c.
Proof.
  destruct c as [[] [] [] [] [] [] [] []]; reflexivity.
Qed.

Lemma dropWhile_ext p q s :
  (forall c, p c = q c) -> strings.dropWhile p s = strings.dropWhile q s.
Proof.
  intros H. induction s as [|c s IH]; [done|]. simpl.
  by rewrite H, IH.
Qed.

Lemma takeWhile_dropWhile p s :
  strings.takeWhile p s ++ strings.dropWhile p s = s.
Proof.
  induction s as [|c s IH]; [done|]. simpl.
  destruct (p c); [|done]. simpl. by rewrite IH.
Qed.

Lemma takeWhile_Forall p s :
  Forall (fun c => p c = true) (strings.takeWhile p s).
Proof.
  induction s as [|c s IH]; [constructor|]. simpl.
  destruct (p c) eqn:Hc; by constructor.
Qed.

Lemma dropWhile_head p s c t : strings.dropWhile p s = c :: t -> p c = false.
Proof.
  induction s as [|x s IH]; [done|]. simpl.
  destruct (p x) eqn:Hx; [done|]. by intros [= -> ->].
Qed.

Lemma HasPrefix_refl s : strings.HasPrefix s s = true.
Proof.
  induction s as [|c s IH]; [done|]. simpl.
  by rewrite Ascii.eqb_refl, IH.
Qed.

(** The text left by [TrimLeft] first occurs in [s] where the leading run
    ends: before that, a byte of the run stands where the text has a byte
    outside the run. *)
Lemma Index_dropWhile p s :
  strings.dropWhile p s <> [] ->
  strings.Index s (strings.dropWhile p s)
  = Some (length (strings.takeWhile p s)).
Proof.
  induction s as [|c s IH]; [done|]. intros Hne.
  cbn [strings.dropWhile strings.takeWhile] in *.
  destruct (p c) eqn:Hc.
  - destruct (strings.dropWhile p s) as [|x t] eqn:Hd; [done|].
    apply dropWhile_head in Hd as Hx.
    cbn [strings.Index strings.HasPrefix].
    destruct (Ascii.eqb_spec c x) as [->|_]; [congruence|].
    cbn [andb]. rewrite IH by done. done.
  - cbn [strings.Index]. by rewrite HasPrefix_refl.
Qed.

Lemma take_takeWhile p s :
  take (length (strings.takeWhile p s)) s = strings.takeWhile p s.
Proof.
  rewrite <- (takeWhile_dropWhile p s) at 2.
  by rewrite take_app_length.
Qed.

Lemma splitLeadingWs_spec s :
  strings.dropWhile isSpaceOrTab s <> [] ->
  splitLeadingWs s
  = Some (strings.takeWhile isSpaceOrTab s, strings.dropWhile isSpaceOrTab s).
Proof.
  intros Hne. unfold splitLeadingWs, strings.TrimLeft.
  rewrite (dropWhile_ext _ _ s inCutset_tab_space).
  by rewrite Index_dropWhile, take_takeWhile.
Qed.

(** A text of blanks and tabs only is white space only. *)
Lemma onlyWhitespace_blanks s :
  strings.dropWhile isSpaceOrTab s = [] -> onlyWhitespace s = true.
Proof.
  induction s as [|c s IH]; [done|]. simpl.
  destruct (isSpaceOrTab c) eqn:Hc; [|done]. intros Hd.
  assert (c = "009" \/ c = " ") as [-> | ->].
  { destruct c as [[] [] [] [] [] [] [] []]; try done; auto. }
  - rewrite onlyWhitespace_ascii by done. by rewrite IH.
  - rewrite onlyWhitespace_ascii by done. by rewrite IH.
Qed.

(** ** Loops over the sections *)

Lemma setCode_lookup h p sec v :
  h !! p = Some sec -> setCode h p v = <[p := mkSection (Doc sec) v]> h.
Proof. intros H. unfold setCode, load. by rewrite H. Qed.

(** A loop whose body replaces the code of the section it works on by a
    function of that code: over distinct pointers every section is
    rewritten once, from its original code. *)
Lemma forRange_setCode body (g : gostring -> gostring) h ps :
  (forall h p sec,
     h !! p = Some sec -> body h p = Some (setCode h p (g (Code sec)))) ->
  NoDup ps -> (forall p, p ∈ ps -> p < length h) ->
  exists h',
    forRange body h ps = Some h'
    /\ length h' = length h
    /\ (forall p, p ∉ ps -> h' !! p = h !! p)
    /\ (forall p sec,
          p ∈ ps -> h !! p = Some sec ->
          h' !! p = Some (mkSection (Doc sec) (g (Code sec)))).
Proof.
  intros Hbody Hnd. revert h.
  induction Hnd as [|p ps Hp Hnd IH]; intros h Hin.
  { exists h. repeat split; try done. intros p sec Hp. by apply elem_of_nil in Hp. }
  assert (p < length h) as Hlt by (apply Hin; left).
  destruct (lookup_lt_is_Some_2 h p Hlt) as [sec Hsec].
  cbn [forRange]. rewrite (Hbody h p sec Hsec), (setCode_lookup h p sec) by done.
  set (h1 := <[p := mkSection (Doc sec) (g (Code sec))]> h).
  destruct (IH h1) as (h' & Hrun & Hlen & Hframe & Hres).
  { intros q Hq. unfold h1. rewrite length_insert. apply Hin. by right. }
  exists h'. split; [done|]. split; [by rewrite Hlen; unfold h1; rewrite length_insert|].
  split.
  - intros q Hq. apply not_elem_of_cons in Hq as [Hne Hq].
    rewrite Hframe by done. unfold h1. by rewrite list_lookup_insert_ne.
  - intros q sec' Hq Hsec'. apply elem_of_cons in Hq as [->|Hq].
    + rewrite Hframe by done. unfold h1.
      rewrite list_lookup_insert_eq by done. congruence.
    + apply Hres; [done|]. unfold h1.
      rewrite list_lookup_insert_ne; [done|]. intros ->. done.
Qed.

(** ** [highlightCode] *)

Lemma highlightOne_spec Highlight h p sec :
  h !! p = Some sec ->
  highlightOne Highlight h p
  = Some (setCode h p (highlighted Highlight (Code sec))).
Proof.
  intros Hsec. unfold highlightOne, highlighted. rewrite Hsec, highlight_test.
  destruct (onlyWhitespace (Code sec)) eqn:Hws; cbn [negb]; [done|].
  rewrite splitLeadingWs_spec; [done|].
  intros E. apply onlyWhitespace_blanks in E. congruence.
Qed.

(** C4, as written, does not hold: the claim has the new code empty only
    when the original code is white space only, for a highlighter about
    which nothing is assumed; but a highlighter that returns the empty
    string turns the code ["x"], which has no white space at all, into
    the empty string too. *)
Lemma C4_only_when_refuted :
  ~ (forall (Highlight : gostring -> gostring) h p sec h',
       h !! p = Some sec -> highlightCode Highlight h [p] = Some h' ->
       (Code (load h' p) = [] <-> onlyWhitespace (Code sec) = true)).
Proof.
  intros H.
  destruct (H (fun _ => []) [mkSection [] (gostr "x")] 0
              (mkSection [] (gostr "x")) [mkSection [] []] eq_refl)
    as [H1 _].
  - vm_compute. reflexivity.
  - specialize (H1 eq_refl). vm_compute in H1. discriminate H1.
Qed.

(** C4, amended: [highlightCode] (HTML target), run on any list of
    distinct, allocated sections with any highlighter, does not panic,
    leaves the other cells of the store and every doc as they are, and
    for each section of the list: when its code consists of white space
    only (blanks, tabs, newlines and the other characters [TrimSpace]
    takes for white space), the new code is exactly the empty string;
    when it does not, the new code is [ws ++ Highlight rest], where [ws]
    is the maximal leading run of blanks and tabs of the original code,
    [rest] is what follows that run, and [ws ++ rest] is the original
    code; that new code is the empty string only if [ws] is empty and the
    highlighter returns the empty string for [rest]. *)
Theorem C4_highlightCode (Highlight : gostring -> gostring) h ps :
  NoDup ps -> (forall p, p ∈ ps -> p < length h) ->
  exists h',
    highlightCode Highlight h ps = Some h'
    /\ length h' = length h
    /\ (forall p, p ∉ ps -> h' !! p = h !! p)
    /\ (forall p sec,
          p ∈ ps -> h !! p = Some sec ->
          exists sec',
            h' !! p = Some sec' /\ Doc sec' = Doc sec
            /\ ((onlyWhitespace (Code sec) = true /\ Code sec' = [])
                \/ (onlyWhitespace (Code sec) = false
                    /\ exists ws rest,
                         ws ++ rest = Code sec
                         /\ Forall (fun c => isSpaceOrTab c = true) ws
                         /\ (forall c t, rest = c :: t -> isSpaceOrTab c = false)
                         /\ Code sec' = ws ++ Highlight rest
                         /\ (Code sec' = []
                             <-> ws = [] /\ Highlight rest = [])))).
Proof.
  intros Hnd Hin.
  destruct (forRange_setCode (highlightOne Highlight) (highlighted Highlight)
              h ps (highlightOne_spec Highlight) Hnd Hin)
    as (h' & Hrun & Hlen & Hframe & Hres).
  exists h'. split; [done|]. split; [done|]. split; [done|].
  intros p sec Hp Hsec. eexists. split; [by apply Hres|]. split; [done|].
  cbn [Code]. unfold highlighted.
  destruct (onlyWhitespace (Code sec)) eqn:Hws; [by left|right].
  split; [done|].
  exists (strings.takeWhile isSpaceOrTab (Code sec)),
         (strings.dropWhile isSpaceOrTab (Code sec)).
  split; [apply takeWhile_dropWhile|]. split; [apply takeWhile_Forall|].
  split; [intros c t; apply dropWhile_head|].
  split; [done|]. split.
  - by intros [? ?]%app_eq_nil.
  - by intros [-> ->].
Qed.

Lemma C4_witness :
  exists h',
    highlightCode (fun code => "<" :: code ++ [">"])
      [mkSection (gostr "doc\n") (gostr "  x := 1\n");
       mkSection (gostr "end\n") (gostr " \n\n")] [0; 1] = Some h'
    /\ length h' = 2.
Proof.
  destruct (C4_highlightCode (fun code => "<" :: code ++ [">"])
              [mkSection (gostr "doc\n") (gostr "  x := 1\n");
               mkSection (gostr "end\n") (gostr " \n\n")] [0; 1])
    as (h' & Hrun & Hlen & _).
  - apply (NoDup_seq 0 2).
  - intros p Hp. apply (elem_of_seq 0 2) in Hp. simpl. lia.
  - exists h'. by split.
Defined.

(** ** [markdownCode] *)

Lemma markdownOne_spec h p sec :
  h !! p = Some sec ->
  markdownOne h p = Some (setCode h p (fencedUnlessNewline (Code sec))).
Proof.
  intros Hsec. unfold markdownOne, fencedUnlessNewline. rewrite Hsec.
  destruct (bool_decide (Code sec = gostr "\n")); cbn [negb]; [|done].
  rewrite (setCode_lookup h p sec) by done.
  rewrite list_insert_id; [done|]. by destruct sec.
Qed.

(** What [markdownCode] does as it is written: run on any list of
    distinct, allocated sections, it does not panic, leaves the other
    cells of the store and every doc as they are, keeps a code that is
    exactly ["\n"], and puts every other code between ["\n```go\n"] and
    ["```\n"]. *)
Lemma markdownCode_effect h ps :
  NoDup ps -> (forall p, p ∈ ps -> p < length h) ->
  exists h',
    markdownCode h ps = Some h'
    /\ length h' = length h
    /\ (forall p, p ∉ ps -> h' !! p = h !! p)
    /\ (forall p sec,
          p ∈ ps -> h !! p = Some sec ->
          exists sec',
            h' !! p = Some sec' /\ Doc sec' = Doc sec
            /\ (Code sec = gostr "\n" -> Code sec' = gostr "\n")
            /\ (Code sec <> gostr "\n" ->
                Code sec' = gostr "\n```go\n" ++ Code sec ++ gostr "```\n")).
Proof.
  intros Hnd Hin.
  destruct (forRange_setCode markdownOne fencedUnlessNewline
              h ps markdownOne_spec Hnd Hin)
    as (h' & Hrun & Hlen & Hframe & Hres).
  exists h'. split; [done|]. split; [done|]. split; [done|].
  intros p sec Hp Hsec. eexists. split; [by apply Hres|]. split; [done|].
  cbn [Code]. unfold fencedUnlessNewline.
  split.
  - intros E. by rewrite bool_decide_eq_true_2.
  - intros E. by rewrite bool_decide_eq_false_2.
Qed.

(** C7: the code does not do what the claim says.  The source
    ["x\n// c"] ends in a comment, so its last section has the code [""];
    the test [Code != "\n"] of [markdownCode] lets it through, and the
    section that the claim has remain empty gets a fence around nothing:
    with [-md] (and without [-intro]) the output of [generateDocs] ends
    in ["\n```go\n```\n"]. *)
Theorem C7_empty_code_is_fenced :
  extractSections false (gostr "x\n// c")
  = ([mkSection [] (gostr "x\n"); mkSection (gostr "c\n") []], [0; 1])
  /\ markdownCode [mkSection [] (gostr "x\n"); mkSection (gostr "c\n") []]
       [0; 1]
     = Some [mkSection [] (gostr "\n```go\nx\n```\n");
             mkSection (gostr "c\n") (gostr "\n```go\n```\n")]
  /\ (forall Highlight markdownString pathClean PathSeparator Execute
             bare inline csspath style title,
        generateDocs Highlight markdownString pathClean PathSeparator Execute
          true false bare inline csspath style title (gostr "x\n// c")
        = Some (gostr "\n```go\nx\n```\nc\n\n```go\n```\n")).
Proof.
  split; [vm_compute; reflexivity|].
  split; [vm_compute; reflexivity|].
  intros. vm_compute. reflexivity.
Qed.

(** * More properties of the program *)

(** ** What the patterns match *)

Lemma dropWhile_app_Forall p (ws : gostring) x t :
  Forall (fun c => p c = true) ws -> p x = false ->
  strings.dropWhile p (ws ++ x :: t) = x :: t.
Proof.
  intros Hws Hx. induction Hws as [|c ws Hc _ IH]; simpl.
  - by rewrite Hx.
  - by rewrite Hc.
Qed.

Lemma take_nonempty (s : gostring) n : 0 < n -> s <> [] -> take n s <> [].
Proof. destruct n, s; simpl; try done. lia. Qed.

Lemma slash_pattern_shape c line :
  matches [[BeginText; Star perl_space; Lit "/"; Lit c; Opt perl_space]] line
  = true
  <-> exists ws rest,
        line = ws ++ "/" :: c :: rest
        /\ Forall (fun x => perl_space x = true) ws.
Proof.
  unfold matches. rewrite FindString_anchored, matchSeq_slash_after_space.
  split.
  - intros H. exists (strings.takeWhile perl_space line).
    destruct (strings.dropWhile perl_space line) as [|x [|y t]] eqn:Hd;
      cbn [matchSeq] in H.
    + by rewrite bool_decide_eq_true_2 in H.
    + destruct (Ascii.eqb x "/"); by rewrite bool_decide_eq_true_2 in H.
    + destruct (Ascii.eqb_spec x "/") as [->|];
        [|by rewrite bool_decide_eq_true_2 in H].
      destruct (Ascii.eqb_spec y c) as [->|];
        [|by rewrite bool_decide_eq_true_2 in H].
      exists t. split; [|apply takeWhile_Forall].
      by rewrite <- Hd, takeWhile_dropWhile.
  - intros (ws & rest & -> & Hws).
    rewrite dropWhile_app_Forall by done. cbn [matchSeq].
    rewrite !Ascii.eqb_refl.
    assert (forall e : gostring, length e <= length rest ->
              negb (bool_decide
                (take (length (ws ++ "/" :: c :: rest) - length e)
                      (ws ++ "/" :: c :: rest) = [])) = true) as Hne.
    { intros e He. rewrite bool_decide_eq_false_2; [done|].
      apply take_nonempty; [|by destruct ws].
      rewrite length_app. simpl. lia. }
    destruct rest as [|x rest]; [by apply Hne|].
    destruct (perl_space x); cbn [matchSeq]; apply Hne; simpl; lia.
Qed.

(** X1: the single-line comment pattern matches exactly the lines that
    begin, after any run of white space, with [//], and the block-comment
    start pattern exactly those that begin, after any run of white space,
    with [/*]. *)
Theorem comment_patterns_shape line :
  (matches comment line = true
   <-> exists ws rest,
         line = ws ++ "/" :: "/" :: rest
         /\ Forall (fun x => perl_space x = true) ws)
  /\ (matches commentStart line = true
      <-> exists ws rest,
            line = ws ++ "/" :: "*" :: rest
            /\ Forall (fun x => perl_space x = true) ws).
Proof. split; apply slash_pattern_shape. Qed.

Lemma forallb_Forall_true (p : ascii -> bool) l :
  forallb p l = true <-> Forall (fun x => p x = true) l.
Proof.
  induction l as [|x l IH]; simpl.
  - split; [constructor|done].
  - split.
    + intros [Hx Hl]%andb_true_iff. constructor; [done|by apply IH].
    + intros H. inversion H; subst. apply andb_true_iff.
      split; [done|by apply IH].
Qed.

Lemma comment_patterns_shape_witness :
  matches comment (gostr "  // indented") = true.
Proof.
  apply (proj2 (proj1 (comment_patterns_shape (gostr "  // indented")))).
  exists (gostr "  "), (gostr " indented"). split; [reflexivity|].
  repeat constructor.
Defined.

Lemma star_EndText p b t :
  star p (matchSeq [EndText]) b t = if forallb p t then Some [] else None.
Proof.
  revert b. induction t as [|x t IH]; intros b; [done|]. simpl.
  destruct (p x); [|done]. rewrite IH. simpl.
  by destruct (forallb p t).
Qed.

Lemma matchSeq_Opt p r b s :
  matchSeq (Opt p :: r) b s =
  match s with
  | x :: s' =>
      if p x then
        match matchSeq r false s' with
        | Some e => Some e
        | None => matchSeq r b s
        end
      else matchSeq r b s
  | [] => matchSeq r b s
  end.
Proof. by destruct s. Qed.

Lemma commentEndPtrn_match b s e :
  matchSeq commentEndPtrn b s = Some e ->
  e = []
  /\ exists pre ws,
       s = pre ++ "*" :: "/" :: ws
       /\ Forall (fun x => perl_space x = true) ws.
Proof.
  assert (forall b t e,
            matchSeq [Lit "*"; Lit "/"; Star perl_space; EndText] b t = Some e ->
            e = [] /\ exists ws, t = "*" :: "/" :: ws
                     /\ Forall (fun x => perl_space x = true) ws) as Htail.
  { intros b' t e' H. destruct t as [|x [|y ws]]; cbn [matchSeq] in H; try done.
    - by destruct (Ascii.eqb x "*").
    - destruct (Ascii.eqb_spec x "*") as [->|]; [|done].
      destruct (Ascii.eqb_spec y "/") as [->|]; [|done].
      rewrite star_EndText in H.
      destruct (forallb perl_space ws) eqn:Hall; [|done].
      injection H as <-. split; [done|]. exists ws. split; [done|].
      by apply forallb_Forall_true. }
  unfold commentEndPtrn. rewrite matchSeq_Opt.
  destruct s as [|x s'].
  - intros H. by apply Htail in H as [_ (ws & ? & _)].
  - destruct (perl_space x).
    + destruct (matchSeq [Lit "*"; Lit "/"; Star perl_space; EndText] false s')
        as [e'|] eqn:H1.
      * intros [= <-]. apply Htail in H1 as [-> (ws & -> & Hws)].
        split; [done|]. by exists [x], ws.
      * intros H. apply Htail in H as [-> (ws & E & Hws)].
        split; [done|]. exists [], ws. by rewrite E.
    + intros H. apply Htail in H as [-> (ws & E & Hws)].
      split; [done|]. exists [], ws. by rewrite E.
Qed.

Lemma commentEndPtrn_here b ws :
  Forall (fun x => perl_space x = true) ws ->
  matchSeq commentEndPtrn b ("*" :: "/" :: ws) = Some [].
Proof.
  intros Hws. unfold commentEndPtrn. cbn [matchSeq perl_space].
  rewrite star_EndText.
  by rewrite (proj2 (forallb_Forall_true perl_space ws) Hws).
Qed.

Lemma search_commentEnd_sound b s a0 a1 :
  search commentEnd b s = Some (a0, a1) ->
  a0 < a1 /\ a1 = length s
  /\ exists pre ws,
       s = pre ++ "*" :: "/" :: ws
       /\ Forall (fun x => perl_space x = true) ws.
Proof.
  revert b a0 a1. induction s as [|x s IH]; intros b a0 a1.
  - cbn [search matchHere commentEnd].
    destruct (matchSeq commentEndPtrn b []) as [e|] eqn:H; [|done].
    apply commentEndPtrn_match in H as [_ (pre & ws & E & _)].
    by destruct pre.
  - cbn [search matchHere commentEnd].
    destruct (matchSeq commentEndPtrn b (x :: s)) as [e|] eqn:H.
    + intros [= <- <-].
      apply commentEndPtrn_match in H as [-> (pre & ws & E & Hws)].
      split; [simpl; lia|]. split; [simpl; lia|]. by exists pre, ws.
    + destruct (search commentEnd false s) as [[b0 b1]|] eqn:Hs; [|done].
      intros [= <- <-].
      apply IH in Hs as (Hlt & -> & pre & ws & -> & Hws).
      split; [lia|]. split; [done|]. by exists (x :: pre), ws.
Qed.

Lemma search_commentEnd_complete b pre ws :
  Forall (fun x => perl_space x = true) ws ->
  exists a0,
    search commentEnd b (pre ++ "*" :: "/" :: ws)
    = Some (a0, length (pre ++ "*" :: "/" :: ws))
    /\ a0 < length (pre ++ "*" :: "/" :: ws).
Proof.
  intros Hws. revert b. induction pre as [|x pre IH]; intros b.
  - cbn [app search matchHere commentEnd].
    rewrite commentEndPtrn_here by done. exists 0. simpl. split; [done|lia].
  - rewrite <- app_comm_cons. cbn [search matchHere commentEnd].
    destruct (matchSeq commentEndPtrn b (x :: pre ++ "*" :: "/" :: ws))
      as [e|] eqn:H.
    + apply commentEndPtrn_match in H as [-> _]. exists 0.
      simpl. split; [done|lia].
    + destruct (IH false) as (a0 & -> & Hlt). exists (S a0).
      split; [done|]. simpl. lia.
Qed.

(** X2: the block-comment end pattern matches exactly the lines that end,
    up to trailing white space, with [*/]. *)
Theorem commentEnd_pattern_shape line :
  matches commentEnd line = true
  <-> exists pre ws,
        line = pre ++ "*" :: "/" :: ws
        /\ Forall (fun x => perl_space x = true) ws.
Proof.
  unfold matches, FindString, doExecute. rewrite drop_0. cbn [Nat.eqb].
  split.
  - destruct (search commentEnd true line) as [[a0 a1]|] eqn:Hs.
    + intros _. by apply search_commentEnd_sound in Hs as (_ & _ & H).
    + by rewrite bool_decide_eq_true_2.
  - intros (pre & ws & -> & Hws).
    destruct (search_commentEnd_complete true pre ws Hws) as (a0 & -> & Hlt).
    rewrite bool_decide_eq_false_2; [done|]. cbn [Nat.add].
    unfold slice. intros E. apply (f_equal length) in E.
    rewrite length_take, length_drop in E. simpl in E. lia.
Qed.

Lemma commentEnd_pattern_shape_witness :
  matches commentEnd (gostr "End */ ") = true.
Proof.
  apply (proj2 (commentEnd_pattern_shape (gostr "End */ "))).
  exists (gostr "End "), (gostr " "). split; [reflexivity|].
  repeat constructor.
Defined.

(** ** Directives and lines without a slash *)

Lemma isDirective_HasPrefix line :
  isDirective line = strings.HasPrefix line (gostr "//go:").
Proof.
  unfold isDirective, directive, directivePtrn.
  rewrite FindString_anchored.
  destruct line as [|c1 [|c2 [|c3 [|c4 [|c5 rest]]]]];
    cbn [matchSeq strings.HasPrefix gostr];
    repeat match goal with
    | |- context [Ascii.eqb ?x ?y] =>
        destruct (Ascii.eqb x y); cbn [andb]; try reflexivity
    end; try reflexivity.
  rewrite bool_decide_eq_false_2; [by destruct rest|].
  apply take_nonempty; [simpl; lia|done].
Qed.

Lemma isDirective_prefix line :
  isDirective line = true <-> exists rest, line = gostr "//go:" ++ rest.
Proof.
  rewrite isDirective_HasPrefix. split.
  - destruct line as [|c1 [|c2 [|c3 [|c4 [|c5 rest]]]]];
      cbn [strings.HasPrefix gostr]; try done;
      repeat match goal with
      | |- context [Ascii.eqb ?x ?y] =>
          destruct (Ascii.eqb_spec x y) as [->|]; cbn [andb]; try done
      end.
    intros _. by exists rest.
  - intros (rest & ->). by destruct rest.
Qed.

Lemma directive_is_comment line :
  isDirective line = true -> matches comment line = true.
Proof.
  intros (rest & ->)%isDirective_prefix.
  apply (proj2 (slash_pattern_shape "/" _)).
  exists [], (gostr "go:" ++ rest). split; [done|constructor].
Qed.

(** X3: a line is a directive exactly when it begins with [//go:] at its
    very first byte; such a line would be taken for a single-line comment
    by the classifier, so it is the test at the top of the loop of
    [extractSections] that keeps it out of the docs. *)
Theorem directive_shape line :
  (isDirective line = true <-> exists rest, line = gostr "//go:" ++ rest)
  /\ (isDirective line = true -> matches comment line = true).
Proof.
  split; [apply isDirective_prefix|apply directive_is_comment].
Qed.

Lemma directive_shape_witness :
  matches comment (gostr "//go:generate foo") = true.
Proof.
  apply (proj2 (directive_shape (gostr "//go:generate foo"))).
  vm_compute. reflexivity.
Defined.

Lemma star_None p k b (s : gostring) :
  (forall b' t, t ⊆ s -> k b' t = None) -> star p k b s = None.
Proof.
  revert b. induction s as [|x s IH]; intros b Hk; simpl.
  - by apply Hk.
  - rewrite IH.
    + destruct (p x); by apply Hk.
    + intros b' t Ht. apply Hk. set_solver.
Qed.

(** A pattern with a literal byte does not match a text without that
    byte. *)
Lemma matchSeq_needs_Lit c r b (s : gostring) :
  Lit c ∈ r -> c ∉ s -> matchSeq r b s = None.
Proof.
  revert b s. induction r as [|a r IH]; intros b s Hin Hs.
  { by apply elem_of_nil in Hin. }
  apply elem_of_cons in Hin.
  destruct a as [| |x|p|p].
  - destruct Hin as [?|Hin]; [done|]. simpl. destruct b; [by apply IH|done].
  - destruct Hin as [?|Hin]; [done|]. simpl. destruct s; [by apply IH|done].
  - simpl. destruct s as [|y s]; [done|].
    apply not_elem_of_cons in Hs as [Hy Hs].
    destruct (Ascii.eqb_spec y x) as [->|]; [|done].
    destruct Hin as [[= <-]|Hin]; [done|]. by apply IH.
  - destruct Hin as [?|Hin]; [done|].
    change (matchSeq (Star p :: r) b s) with (star p (matchSeq r) b s).
    apply star_None. intros b' t Ht. apply IH; [done|]. set_solver.
  - destruct Hin as [?|Hin]; [done|]. rewrite matchSeq_Opt.
    destruct s as [|y s]; [by apply IH|].
    rewrite (IH false s), (IH b (y :: s)) by set_solver.
    by destruct (p y).
Qed.

Lemma search_needs_Lit c re b (s : gostring) :
  Forall (fun r => Lit c ∈ r) re -> c ∉ s -> search re b s = None.
Proof.
  intros Hre. revert b. induction s as [|x s IH]; intros b Hs.
  - simpl. replace (matchHere re b []) with (@None gostring); [done|].
    symmetry. induction Hre as [|r re Hr _ IHre]; [done|]. simpl.
    by rewrite matchSeq_needs_Lit with (c := c).
  - simpl. replace (matchHere re b (x :: s)) with (@None gostring).
    + rewrite IH; [done|set_solver].
    + symmetry. clear IH. induction Hre as [|r re Hr _ IHre]; [done|]. simpl.
      by rewrite matchSeq_needs_Lit with (c := c).
Qed.

Lemma doExecute_needs_Lit c re (src : gostring) pos :
  Forall (fun r => Lit c ∈ r) re -> c ∉ src -> doExecute re src pos = None.
Proof.
  intros Hre Hs. unfold doExecute. rewrite search_needs_Lit with (c := c);
    [done|done|].
  intros H. by apply (subseteq_drop pos src) in H.
Qed.

Lemma matches_needs_Lit c re (line : gostring) :
  Forall (fun r => Lit c ∈ r) re -> c ∉ line -> matches re line = false.
Proof.
  intros Hre Hs. unfold matches, FindString.
  by rewrite doExecute_needs_Lit with (c := c).
Qed.

Lemma patterns_need_slash :
  Forall (fun r => Lit "/" ∈ r) allCommentDelims.
Proof.
  repeat constructor;
    unfold commentPtrn, commentStartPtrn, commentEndPtrn; set_solver.
Qed.

Lemma no_slash_line flag line :
  "/" ∉ line ->
  stripped line = line /\ isDirective line = false
  /\ isInComment flag line = (flag, flag).
Proof.
  intros Hs. split; [|split].
  - unfold stripped, ReplaceAllString.
    replace (length line + 2) with (S (length line + 1)) by lia.
    cbn [replaceLoop Nat.leb].
    by rewrite doExecute_needs_Lit with (c := "/")
      by (apply patterns_need_slash || done).
  - change (isDirective line) with
      (if matches directive line then true else false).
    rewrite matches_needs_Lit with (c := "/"); [done| |done].
    repeat constructor.
  - unfold isInComment.
    fold (matches comment line). fold (matches commentStart line).
    fold (matches commentEnd line).
    rewrite !matches_needs_Lit with (c := "/");
      try done; try (repeat constructor;
        unfold commentPtrn, commentStartPtrn, commentEndPtrn; set_solver).
    by destruct flag.
Qed.

(** X4: a line without a slash matches none of the patterns: it is no
    directive, the classifier answers "comment" for it exactly when it is
    inside a block comment and keeps its state, and stripping the comment
    delimiters leaves the line as it is (leading blanks included). *)
Theorem line_without_slash flag line :
  "/" ∉ line ->
  isDirective line = false
  /\ isInComment flag line = (flag, flag)
  /\ stripped line = line.
Proof. intros H. by destruct (no_slash_line flag line H) as (? & ? & ?). Qed.

Lemma line_without_slash_witness :
  isInComment true (gostr "  indented text") = (true, true).
Proof.
  refine (proj1 (proj2 (line_without_slash true (gostr "  indented text") _))).
  vm_compute. intros H.
  repeat (apply elem_of_cons in H as [H|H]; [discriminate H|]).
  by apply elem_of_nil in H.
Defined.

(** ** More on [extractSections] *)

Lemma extractLoop_intro lines st c :
  st_heap st = [c] -> current st = 0 -> sections st = [] -> Code c = [] ->
  st_heap (extractLoop true lines st)
  = [mkSection
       (Doc c ++ concat ((fun l => stripped l ++ [newline])
                         <$> introLines (commentSectionInProgress st) lines))
       []]
  /\ sections (extractLoop true lines st) = []
  /\ current (extractLoop true lines st) = 0.
Proof.
  revert st c. induction lines as [|l lines IH]; intros st c Hh Hcur Hs Hc.
  { simpl. rewrite app_nil_r, Hh. destruct c as [d cd]. simpl in Hc.
    by subst cd. }
  cbn [extractLoop introLines].
  destruct (isDirective l) eqn:Hd.
  { rewrite extractStep_directive by done. by apply IH. }
  destruct (isInComment (commentSectionInProgress st) l)
    as [[|] flag] eqn:E.
  - erewrite (extractStep_comment_same true l st [] c) by done.
    rewrite app_nil_l.
    set (c' := mkSection (Doc c ++ stripped l ++ [newline]) []).
    destruct (IH (mkState [c'] (sections st) (current st) flag) c')
      as (H1 & H2 & H3); [done..|].
    rewrite H1, H2, H3. cbn [Doc commentSectionInProgress c'].
    rewrite fmap_cons. cbn [concat]. by rewrite <- !app_assoc.
  - erewrite extractStep_break by done. simpl.
    rewrite app_nil_r, Hh. destruct c as [d cd]. simpl in Hc. by subst cd.
Qed.

Lemma extractSections_intro source :
  extractSections true source =
  ([mkSection
      (concat ((fun l => stripped l ++ [newline])
               <$> introLines commentFinder (strings.Split source newline)))
      []],
   [0]).
Proof.
  unfold extractSections.
  destruct (extractLoop_intro (strings.Split source newline) extractInit
              zeroSection) as (H1 & H2 & H3); try done.
  by rewrite H1, H2, H3.
Qed.

(** X5: with [-intro], whatever the source, [extractSections] returns
    exactly one section, held in cell 0 of the store; its code is empty
    and its doc is made of the stripped lines, each followed by a newline,
    that come before the first line that is neither a directive nor
    classified as a comment. *)
Theorem intro_returns_one_section source :
  extractSections true source =
  ([mkSection
      (concat ((fun l => stripped l ++ [newline])
               <$> introLines commentFinder (strings.Split source newline)))
      []],
   [0])
  /\ length (extractSections true source).2 = 1
  /\ Forall (fun sec => Code sec = []) (extracted true source).
Proof.
  rewrite extracted_heap.
  pose proof (extractSections_intro source) as H.
  unfold extractSections in H. injection H as H1 H2.
  unfold extractSections. cbn [snd]. rewrite H1, H2.
  split; [done|]. split; [done|]. by repeat constructor.
Qed.

Lemma newlineTerminated_snoc s t :
  newlineTerminated (s ++ t ++ [newline]).
Proof. right. exists (s ++ t). by rewrite <- app_assoc. Qed.

Lemma drop_1_snoc (front : heap) c :
  drop 1 (front ++ [c])
  = if bool_decide (front = []) then [] else drop 1 front ++ [c].
Proof. by destruct front. Qed.

Lemma shaped_replace front c c' :
  shaped (front ++ [c]) ->
  newlineTerminated (Doc c') -> newlineTerminated (Code c') ->
  (Doc c <> [] -> Doc c' <> []) ->
  shaped (front ++ [c']).
Proof.
  intros [Hnt Hdoc] Hd Hc Hne. split.
  - apply Forall_app in Hnt as [Hf _]. apply Forall_app. split; [done|].
    by constructor.
  - rewrite drop_1_snoc in Hdoc |- *.
    destruct (bool_decide (front = [])); [constructor|].
    apply Forall_app in Hdoc as [Hf Hc']. apply Forall_app. split; [done|].
    constructor; [|constructor]. apply Hne. by inversion Hc'.
Qed.

Lemma shaped_push front c c' :
  shaped (front ++ [c]) ->
  newlineTerminated (Doc c') -> newlineTerminated (Code c') ->
  Doc c' <> [] ->
  shaped (front ++ [c; c']).
Proof.
  intros [Hnt Hdoc] Hd Hc Hne.
  replace (front ++ [c; c']) with ((front ++ [c]) ++ [c'])
    by by rewrite <- app_assoc.
  split.
  - apply Forall_app. split; [done|]. by constructor.
  - rewrite drop_1_snoc. rewrite bool_decide_eq_false_2 by by destruct front.
    apply Forall_app. split; [done|]. by constructor.
Qed.

Lemma extractStep_shaped intro line st :
  inv st -> shaped (st_heap st) ->
  shaped (st_heap (outcome_state (extractStep intro line st))).
Proof.
  intros (front & c & Hh & Hlen & Hs & Hall) Hshape.
  destruct (isDirective line) eqn:Hd.
  { by rewrite extractStep_directive by done. }
  rewrite Hh in Hshape.
  destruct (isInComment (commentSectionInProgress st) line)
    as [[|] flag] eqn:Hc.
  - destruct (decide (Code c = [])) as [Hcode|Hcode].
    + erewrite extractStep_comment_same by done.
      cbn [outcome_state st_heap].
      apply (shaped_replace front c); cbn [Doc Code]; try done.
      * apply newlineTerminated_snoc.
      * by left.
      * intros _ E. apply (f_equal length) in E.
        rewrite !length_app in E. simpl in E. lia.
    + erewrite extractStep_comment_push by done.
      cbn [outcome_state st_heap].
      apply shaped_push; cbn [Doc Code]; try done.
      * apply (newlineTerminated_snoc []).
      * by left.
      * intros E. apply (f_equal length) in E.
        rewrite !length_app in E. simpl in E. lia.
  - destruct intro.
    + erewrite extractStep_break by done. cbn [outcome_state st_heap].
      by rewrite Hh.
    + erewrite extractStep_code by done. cbn [outcome_state st_heap].
      destruct Hshape as [Hnt Hdoc].
      apply (shaped_replace front c); cbn [Doc Code]; try done.
      * apply Forall_app in Hnt as [_ Hc']. by inversion Hc' as [|? ? [? ?]].
      * apply newlineTerminated_snoc.
Qed.

Lemma extractLoop_shaped intro lines st :
  inv st -> shaped (st_heap st) -> shaped (st_heap (extractLoop intro lines st)).
Proof.
  revert st. induction lines as [|line lines IH]; intros st Hinv Hsh; [done|].
  simpl.
  pose proof (proj1 (extractStep_inv intro line st Hinv)) as Hinv'.
  pose proof (extractStep_shaped intro line st Hinv Hsh) as Hsh'.
  destruct (extractStep intro line st); simpl in *; [by apply IH|done].
Qed.

(** X6: [extractSections], with or without [-intro], never returns an
    empty list; the pointers it returns are distinct and are exactly the
    cells of the store, in order of allocation; every doc and every code
    is empty or ends in a newline; and every section after the first has
    a non-empty doc. *)
Theorem extractSections_shape intro source :
  (extractSections intro source).2 <> []
  /\ (extractSections intro source).2
     = seq 0 (length (extractSections intro source).1)
  /\ Forall (fun s => newlineTerminated (Doc s) /\ newlineTerminated (Code s))
       (extracted intro source)
  /\ Forall (fun s => Doc s <> []) (drop 1 (extracted intro source)).
Proof.
  split.
  { unfold extractSections. cbn [snd]. intros E.
    apply (f_equal length) in E. rewrite length_app in E. simpl in E. lia. }
  split; [apply extractSections_pointers|].
  rewrite extracted_heap.
  apply extractLoop_shaped; [apply extractInit_inv|].
  split.
  - repeat constructor; by left.
  - constructor.
Qed.

Lemma Join_Split s sep : strings.Join (strings.Split s sep) sep = s.
Proof.
  induction s as [|c s IH]; [done|]. cbn [strings.Split].
  pose proof (Split_nonempty s sep) as Hne.
  destruct (Ascii.eqb_spec c sep) as [->|_].
  - destruct (strings.Split s sep) as [|l ls]; [done|].
    change (strings.Join ([] :: l :: ls) sep)
      with ([] ++ sep :: strings.Join (l :: ls) sep).
    by rewrite IH.
  - destruct (strings.Split s sep) as [|l ls]; [done|].
    destruct ls as [|l' ls].
    + simpl in *. by rewrite IH.
    + change (strings.Join ((c :: l) :: l' :: ls) sep)
        with (c :: (l ++ sep :: strings.Join (l' :: ls) sep)).
      by rewrite <- IH.
Qed.

Lemma Split_subseteq s sep :
  Forall (fun line => line ⊆ s) (strings.Split s sep).
Proof.
  induction s as [|c s IH]; simpl.
  - by constructor.
  - destruct (Ascii.eqb c sep).
    + constructor; [by intros x Hx%elem_of_nil|].
      eapply Forall_impl; [done|]. intros l' Hl' x Hx.
      right. by apply Hl'.
    + destruct (strings.Split s sep) as [|l ls].
      * constructor; [|constructor].
        intros x ->%list_elem_of_singleton. left.
      * apply Forall_cons in IH as [Hl Hls]. constructor.
        -- intros x [->|Hx]%elem_of_cons; [left|right; by apply Hl].
        -- eapply Forall_impl; [done|]. intros l' Hl' x Hx.
           right. by apply Hl'.
Qed.

Lemma concat_lines_Join (lines : list gostring) sep :
  lines <> [] ->
  concat ((fun l => l ++ [sep]) <$> lines) = strings.Join lines sep ++ [sep].
Proof.
  induction lines as [|l lines IH]; [done|]. intros _.
  rewrite fmap_cons. cbn [concat].
  destruct lines as [|l' lines].
  - simpl. by rewrite app_nil_r.
  - rewrite IH by done.
    change (strings.Join (l :: l' :: lines) sep)
      with (l ++ sep :: strings.Join (l' :: lines) sep).
    by rewrite <- !app_assoc.
Qed.

Lemma extractLoop_code_only lines st c :
  Forall (fun line => "/" ∉ line) lines ->
  st_heap st = [c] -> current st = 0 -> sections st = [] ->
  commentSectionInProgress st = false ->
  extractLoop false lines st =
  mkState
    [mkSection (Doc c) (Code c ++ concat ((fun l => l ++ [newline]) <$> lines))]
    [] 0 false.
Proof.
  intros Hall. revert st c.
  induction Hall as [|l lines Hl _ IH]; intros st c Hh Hcur Hs Hflag.
  { simpl. rewrite app_nil_r. destruct st, c. simpl in *. by subst. }
  rewrite extractLoop_false_cons.
  destruct (no_slash_line false l Hl) as (_ & Hd & Hc).
  rewrite <- Hflag in Hc at 1.
  rewrite (extractStep_code l st [] c false) by done.
  cbn [outcome_state app].
  rewrite (IH _ (mkSection (Doc c) (Code c ++ l ++ [newline]))) by done.
  cbn [Doc Code]. rewrite fmap_cons. cbn [concat].
  by rewrite <- !app_assoc.
Qed.

(** X7: a source without any slash has no comment and no directive:
    without [-intro], [extractSections] returns one section whose doc is
    empty and whose code is the source followed by one newline. *)
Theorem source_without_slash source :
  "/" ∉ source ->
  extractSections false source = ([mkSection [] (source ++ [newline])], [0]).
Proof.
  intros Hs. unfold extractSections.
  rewrite (extractLoop_code_only _ extractInit zeroSection); try done.
  - cbn [st_heap sections current Doc Code zeroSection app].
    rewrite concat_lines_Join by apply Split_nonempty.
    by rewrite Join_Split.
  - eapply Forall_impl; [apply Split_subseteq|]. set_solver.
Qed.

Lemma source_without_slash_witness :
  extractSections false (gostr "package main\n\nvar x = 1")
  = ([mkSection [] (gostr "package main\n\nvar x = 1\n")], [0]).
Proof.
  apply (source_without_slash (gostr "package main\n\nvar x = 1")).
  vm_compute. intros H.
  repeat (apply elem_of_cons in H as [H|H]; [discriminate H|]).
  by apply elem_of_nil in H.
Defined.

(** X8: the classifier does not look for the end of a block comment on
    the line that opens it.  So when the first of two lines matches the
    block-comment start pattern (as the one-line comment [/* a */] does)
    and the second has no slash, the second line is taken for a comment
    too: without [-intro] the source gives one section whose doc holds
    both lines and whose code is empty. *)
Theorem block_start_takes_next_line first second :
  newline ∉ first -> newline ∉ second ->
  matches commentStart first = true -> "/" ∉ second ->
  extractSections false (first ++ newline :: second) =
  ([mkSection (stripped first ++ newline :: second ++ [newline]) []], [0]).
Proof.
  intros Hn1 Hn2 Hstart Hslash. unfold extractSections.
  rewrite Split_app_no_sep, (Split_no_sep_single second) by done.
  assert (isDirective first = false) as Hd.
  { destruct (isDirective first) eqn:E; [|done].
    apply directive_is_comment in E.
    apply commentStart_not_comment in Hstart. congruence. }
  destruct (no_slash_line true second Hslash) as (Hstrip & Hd2 & Hc2).
  rewrite !extractLoop_false_cons.
  rewrite (extractStep_comment_same false first extractInit [] zeroSection true);
    try done; [|by apply isInComment_start].
  cbn [outcome_state app].
  erewrite (extractStep_comment_same false second _ [] _ true); try done.
  cbn [outcome_state app extractLoop st_heap sections current Doc zeroSection].
  rewrite Hstrip. by rewrite <- app_assoc.
Qed.

Lemma block_start_takes_next_line_witness :
  extractSections false (gostr "/* a */\nx := 1")
  = ([mkSection (gostr "a\nx := 1\n") []], [0]).
Proof.
  refine (block_start_takes_next_line (gostr "/* a */") (gostr "x := 1")
            _ _ _ _).
  - vm_compute. intros H.
    repeat (apply elem_of_cons in H as [H|H]; [discriminate H|]).
    by apply elem_of_nil in H.
  - vm_compute. intros H.
    repeat (apply elem_of_cons in H as [H|H]; [discriminate H|]).
    by apply elem_of_nil in H.
  - vm_compute. reflexivity.
  - vm_compute. intros H.
    repeat (apply elem_of_cons in H as [H|H]; [discriminate H|]).
    by apply elem_of_nil in H.
Defined.

(** X9: [splitLeadingWs] never panics.  For a string that is not made of
    blanks and tabs only it returns the leading run of blanks and tabs
    and the rest, which together are the string; for a string of blanks
    and tabs only (the empty string included) it returns two empty
    strings, so that the blanks are lost. *)
Theorem splitLeadingWs_total s :
  (strings.dropWhile isSpaceOrTab s <> [] ->
   splitLeadingWs s
   = Some (strings.takeWhile isSpaceOrTab s, strings.dropWhile isSpaceOrTab s)
   /\ strings.takeWhile isSpaceOrTab s ++ strings.dropWhile isSpaceOrTab s = s)
  /\ (strings.dropWhile isSpaceOrTab s = [] -> splitLeadingWs s = Some ([], []))
  /\ splitLeadingWs s <> None.
Proof.
  assert (strings.dropWhile isSpaceOrTab s = [] ->
          splitLeadingWs s = Some ([], [])) as Hblank.
  { intros E. unfold splitLeadingWs, strings.TrimLeft.
    rewrite (dropWhile_ext _ _ s inCutset_tab_space), E.
    by destruct s. }
  split; [|split; [done|]].
  - intros Hne. split; [by apply splitLeadingWs_spec|].
    apply takeWhile_dropWhile.
  - destruct (decide (strings.dropWhile isSpaceOrTab s = [])) as [E|E].
    + by rewrite Hblank.
    + by rewrite splitLeadingWs_spec.
Qed.

Lemma splitLeadingWs_total_witness :
  splitLeadingWs (gostr "  \t ") = Some ([], []).
Proof.
  apply (proj1 (proj2 (splitLeadingWs_total (gostr "  \t ")))).
  vm_compute. reflexivity.
Defined.

(** ** The pipeline of [generateDocs] *)

(** A loop whose body rewrites the section it works on, run over all
    cells of the store, rewrites every section once. *)
Lemma forRange_update body (f : section -> section) h ps :
  (forall h p sec, h !! p = Some sec -> body h p = Some (<[p := f sec]> h)) ->
  NoDup ps -> (forall p, p ∈ ps -> p < length h) ->
  exists h',
    forRange body h ps = Some h'
    /\ length h' = length h
    /\ (forall p, p ∉ ps -> h' !! p = h !! p)
    /\ (forall p sec, p ∈ ps -> h !! p = Some sec -> h' !! p = Some (f sec)).
Proof.
  intros Hbody Hnd. revert h.
  induction Hnd as [|p ps Hp Hnd IH]; intros h Hin.
  { exists h. repeat split; try done.
    intros p sec Hp. by apply elem_of_nil in Hp. }
  assert (p < length h) as Hlt by (apply Hin; left).
  destruct (lookup_lt_is_Some_2 h p Hlt) as [sec Hsec].
  cbn [forRange]. rewrite (Hbody h p sec Hsec).
  set (h1 := <[p := f sec]> h).
  destruct (IH h1) as (h' & Hrun & Hlen & Hframe & Hres).
  { intros q Hq. unfold h1. rewrite length_insert. apply Hin. by right. }
  exists h'. split; [done|].
  split; [by rewrite Hlen; unfold h1; rewrite length_insert|].
  split.
  - intros q Hq. apply not_elem_of_cons in Hq as [Hne Hq].
    rewrite Hframe by done. unfold h1. by rewrite list_lookup_insert_ne.
  - intros q sec' Hq Hsec'. apply elem_of_cons in Hq as [->|Hq].
    + rewrite Hframe by done. unfold h1.
      rewrite list_lookup_insert_eq by done. congruence.
    + apply Hres; [done|]. unfold h1.
      rewrite list_lookup_insert_ne; [done|]. intros ->. done.
Qed.

Lemma forRange_all body (f : section -> section) h :
  (forall h p sec, h !! p = Some sec -> body h p = Some (<[p := f sec]> h)) ->
  forRange body h (seq 0 (length h)) = Some (f <$> h).
Proof.
  intros Hbody.
  destruct (forRange_update body f h (seq 0 (length h)) Hbody)
    as (h' & -> & Hlen & _ & Hres).
  { apply NoDup_seq. }
  { intros p Hp. apply elem_of_seq in Hp. lia. }
  f_equal. apply list_eq. intros i. rewrite list_lookup_fmap.
  destruct (h !! i) as [sec|] eqn:Hi.
  - rewrite (Hres i sec); [done| |done].
    apply elem_of_seq. apply lookup_lt_Some in Hi. lia.
  - apply lookup_ge_None. apply lookup_ge_None in Hi. lia.
Qed.

Lemma highlightCode_all Highlight h :
  highlightCode Highlight h (seq 0 (length h))
  = Some ((fun sec => mkSection (Doc sec) (highlighted Highlight (Code sec)))
          <$> h).
Proof.
  apply forRange_all. intros h' p sec Hsec.
  rewrite (highlightOne_spec Highlight h' p sec Hsec).
  by rewrite (setCode_lookup h' p sec).
Qed.

Lemma markdownCode_all h :
  markdownCode h (seq 0 (length h))
  = Some ((fun sec => mkSection (Doc sec) (fencedUnlessNewline (Code sec)))
          <$> h).
Proof.
  apply forRange_all. intros h' p sec Hsec.
  rewrite (markdownOne_spec h' p sec Hsec).
  by rewrite (setCode_lookup h' p sec).
Qed.

Lemma markdownComments_all markdownString h :
  markdownComments markdownString h (seq 0 (length h))
  = Some ((fun sec => mkSection (markdownString (Doc sec)) (Code sec)) <$> h).
Proof.
  apply forRange_all. intros h' p sec Hsec.
  unfold markdownCommentsOne, setDoc, load. by rewrite Hsec.
Qed.

Lemma extractSections_eq intro source :
  extractSections intro source
  = (extracted intro source, seq 0 (length (extracted intro source))).
Proof.
  rewrite extracted_heap.
  pose proof (extractSections_pointers intro source) as H.
  unfold extractSections in *. simpl in *. by rewrite H.
Qed.

Section PipelineProperties.

Variable Highlight : gostring -> gostring.
Variable markdownString : gostring -> gostring.
Variable pathClean : gostring -> gostring.
Variable PathSeparator : ascii.
Variable Execute : heap -> docs -> option gostring.
Variable bare inline : bool.
Variable csspath style : gostring.

(** X10: with [-md] and without [-intro], [generateDocs] does not panic
    and returns, for the sections of the source in order, the doc of each
    followed by its code between the fence lines ["\n```go\n"] and
    ["```\n"], or by its code as it is when that is exactly ["\n"]. *)
Theorem generateDocs_markdown title src :
  generateDocs Highlight markdownString pathClean PathSeparator Execute
    true false bare inline csspath style title src
  = Some (concat ((fun sec => Doc sec ++ fencedUnlessNewline (Code sec))
                  <$> extracted false src)).
Proof.
  unfold generateDocs. rewrite extractSections_eq. cbn [negb].
  rewrite markdownCode_all, joinSections_contents.
  f_equal. unfold contents.
  set (h := (fun sec => mkSection (Doc sec) (fencedUnlessNewline (Code sec)))
            <$> extracted false src).
  replace (length (extracted false src)) with (length h)
    by (unfold h; by rewrite length_fmap).
  change (load h <$> seq 0 (length h)) with (contents h (seq 0 (length h))).
  rewrite contents_seq. unfold h. rewrite <- list_fmap_compose.
  f_equal.
Qed.

(** X11: with [-md] and [-intro], [generateDocs] skips [markdownCode] and
    returns the leading comment block only: the stripped lines, each
    followed by a newline, that come before the first line that is
    neither a directive nor classified as a comment, and no code fence. *)
Theorem generateDocs_markdown_intro title src :
  generateDocs Highlight markdownString pathClean PathSeparator Execute
    true true bare inline csspath style title src
  = Some (concat ((fun l => stripped l ++ [newline])
                  <$> introLines commentFinder (strings.Split src newline))).
Proof.
  unfold generateDocs. rewrite extractSections_intro. cbn [negb].
  f_equal. simpl. by rewrite !app_nil_r.
Qed.

(** X12: without [-md], [generateDocs] does not panic in its two loops:
    it hands to the template the title, the style sheet path, the flags,
    and the sections of the source in order, each with its doc replaced
    by its Markdown rendering and its code replaced by what
    [highlightCode] stores for it (the empty string for a code of white
    space only).  The two loops do not disturb each other. *)
Theorem generateDocs_html intro title src :
  generateDocs Highlight markdownString pathClean PathSeparator Execute
    false intro bare inline csspath style title src
  = Execute
      ((fun sec => mkSection (markdownString (Doc sec))
                             (highlighted Highlight (Code sec)))
       <$> extracted intro src)
      (mkDocs title (seq 0 (length (extracted intro src)))
         ((if 0 <? length csspath then pathClean csspath ++ [PathSeparator]
           else []) ++ cssfilename)
         style (negb bare) inline).
Proof.
  unfold generateDocs. rewrite extractSections_eq. cbn [negb].
  rewrite highlightCode_all.
  set (h1 := (fun sec => mkSection (Doc sec) (highlighted Highlight (Code sec)))
             <$> extracted intro src).
  replace (length (extracted intro src)) with (length h1)
    by (unfold h1; by rewrite length_fmap).
  rewrite markdownComments_all. unfold h1.
  by rewrite <- list_fmap_compose.
Qed.

End PipelineProperties.

(** ** The earlier version *)

Lemma v1_isInComment flag line : v1.isInComment flag line = isInComment flag line.
Proof.
  unfold v1.isInComment, isInComment.
  repeat match goal with
  | |- context [if ?b then _ else _] => destruct b; try done
  end.
Qed.

Lemma v1_extractStep line st :
  isDirective line = false ->
  v1.extractStep line st = outcome_state (extractStep false line st).
Proof.
  intros Hd. unfold v1.extractStep, extractStep.
  rewrite Hd, v1_isInComment.
  destruct (isInComment (commentSectionInProgress st) line) as [[|] flag];
    [|done].
  by destruct (negb _).
Qed.

Lemma v1_extractLoop lines st :
  Forall (fun line => isDirective line = false) lines ->
  v1.extractLoop lines st = extractLoop false lines st.
Proof.
  intros Hall. revert st. induction Hall as [|l lines Hl _ IH]; intros st.
  - done.
  - rewrite extractLoop_false_cons, <- IH.
    unfold v1.extractLoop. cbn [fold_left]. by rewrite v1_extractStep.
Qed.

Lemma filter_notDirective_Forall lines :
  Forall (fun line => isDirective line = false) (filter notDirective lines).
Proof.
  induction lines as [|l lines IH]; [constructor|].
  rewrite filter_notDirective_cons.
  destruct (isDirective l) eqn:Hd; [done|by constructor].
Qed.

(** X13: [extractSections] without [-intro] is the [extractSections] of
    the earlier version [goweave.go] run on the lines that are not
    directives; on a source without directive lines the two versions
    return the same store and the same pointers. *)
Theorem extractSections_extends_v1 source :
  extractSections false source
  = (let st := v1.extractLoop
                 (filter notDirective (strings.Split source newline))
                 extractInit in
     (st_heap st, sections st ++ [current st]))
  /\ (Forall (fun line => isDirective line = false)
        (strings.Split source newline) ->
      extractSections false source = v1.extractSections source).
Proof.
  split.
  - unfold extractSections. rewrite extractLoop_filter.
    by rewrite v1_extractLoop by apply filter_notDirective_Forall.
  - intros Hall. unfold extractSections, v1.extractSections.
    by rewrite v1_extractLoop.
Qed.

Lemma extractSections_extends_v1_witness :
  extractSections false (gostr "// a\nb\n/* c */")
  = v1.extractSections (gostr "// a\nb\n/* c */").
Proof.
  apply (proj2 (extractSections_extends_v1 (gostr "// a\nb\n/* c */"))).
  vm_compute. repeat constructor.
Defined.

(** ** [getHomeDir] *)

(** X14: [getHomeDir] takes the first of [HOMEDRIVE + HOMEPATH],
    [USERPROFILE] and [HOME] that is not empty, and returns the empty
    string exactly when all four variables are empty or unset. *)
Theorem getHomeDir_precedence getenv :
  let drivepath := getenv (gostr "HOMEDRIVE") ++ getenv (gostr "HOMEPATH") in
  (drivepath <> [] -> getHomeDir getenv = drivepath)
  /\ (drivepath = [] -> getenv (gostr "USERPROFILE") <> [] ->
      getHomeDir getenv = getenv (gostr "USERPROFILE"))
  /\ (drivepath = [] -> getenv (gostr "USERPROFILE") = [] ->
      getHomeDir getenv = getenv (gostr "HOME"))
  /\ (getHomeDir getenv = []
      <-> getenv (gostr "HOMEDRIVE") = [] /\ getenv (gostr "HOMEPATH") = []
          /\ getenv (gostr "USERPROFILE") = [] /\ getenv (gostr "HOME") = []).
Proof.
  intros drivepath. unfold getHomeDir. fold drivepath.
  destruct (decide (drivepath = [])) as [E|E].
  - rewrite (bool_decide_eq_true_2 _ E).
    apply app_eq_nil in E as E'. destruct E' as [E1 E2].
    destruct (decide (getenv (gostr "USERPROFILE") = [])) as [U|U].
    + rewrite (bool_decide_eq_true_2 _ U).
      split; [done|]. split; [done|]. split; [done|]. by split; [|intros (_&_&_&?)].
    + rewrite (bool_decide_eq_false_2 _ U).
      split; [done|]. split; [done|]. split; [done|].
      split; [done|by intros (_&_&?&_)].
  - rewrite !(bool_decide_eq_false_2 _ E).
    split; [done|]. split; [done|]. split; [done|].
    split; [done|]. intros (E1 & E2 & _). unfold drivepath in E.
    by rewrite E1, E2 in E.
Qed.

Lemma getHomeDir_precedence_witness :
  getHomeDir (fun name => if bool_decide (name = gostr "HOME")
                          then gostr "/home/u" else [])
  = gostr "/home/u".
Proof.
  rewrite (proj1 (proj2 (proj2 (getHomeDir_precedence
             (fun name => if bool_decide (name = gostr "HOME")
                          then gostr "/home/u" else []))))).
  - vm_compute. reflexivity.
  - vm_compute. reflexivity.
  - vm_compute. reflexivity.
Defined.

(** ** Stripping the comment delimiters *)

Lemma search_le re b s a0 a1 : search re b s = Some (a0, a1) -> a0 <= a1.
Proof.
  revert b a0 a1. induction s as [|x s IH]; intros b a0 a1; simpl.
  - destruct (matchHere re b []); [|done]. intros [= <- <-]. lia.
  - destruct (matchHere re b (x :: s)).
    + intros [= <- <-]. lia.
    + destruct (search re false s) as [[b0 b1]|] eqn:Hs; [|done].
      intros [= <- <-]. apply IH in Hs. lia.
Qed.

Lemma doExecute_le re src pos a0 a1 :
  doExecute re src pos = Some (a0, a1) -> pos <= a0 /\ a0 <= a1.
Proof.
  unfold doExecute.
  destruct (search re (pos =? 0) (drop pos src)) as [[b0 b1]|] eqn:Hs; [|done].
  intros [= <- <-]. apply search_le in Hs. lia.
Qed.

Lemma slice_drop (src : gostring) i j :
  i <= j -> slice src i j ++ drop j src = drop i src.
Proof.
  intros Hij. unfold slice.
  rewrite <- (take_drop (j - i) (drop i src)) at 2.
  rewrite drop_drop. by replace (i + (j - i)) with j by lia.
Qed.

Lemma replaceLoop_sublist fuel re src lastMatchEnd searchPos buf :
  lastMatchEnd <= searchPos ->
  exists r,
    replaceLoop fuel re src [] lastMatchEnd searchPos buf = buf ++ r
    /\ r `sublist_of` drop lastMatchEnd src.
Proof.
  revert lastMatchEnd searchPos buf.
  induction fuel as [|fuel IH]; intros lastMatchEnd searchPos buf Hle;
    cbn [replaceLoop].
  { by eexists. }
  destruct (searchPos <=? length src); [|by eexists].
  destruct (doExecute re src searchPos) as [[a0 a1]|] eqn:Hexec;
    [|by eexists].
  apply doExecute_le in Hexec as [Hp Ha].
  pose proof (searchPos_advances searchPos a1
                (if searchPos <? length src then 1 else 0) ltac:(lia)) as Hadv.
  cbv zeta.
  set (sp' := if a1 <? searchPos + _ then _ else _) in *.
  assert (a1 <= sp') as Hsp'.
  { unfold sp'.
    destruct (Nat.ltb_spec a1
                (searchPos + (if searchPos <? length src then 1 else 0)));
      [lia|].
    destruct (Nat.ltb_spec a1 (searchPos + 1)); lia. }
  set (buf' := if _ || _ then _ else _).
  assert (buf' = buf ++ slice src lastMatchEnd a0) as ->.
  { unfold buf'. destruct (_ || _); [by rewrite app_nil_r|done]. }
  destruct (IH a1 sp' (buf ++ slice src lastMatchEnd a0) Hsp')
    as (r & -> & Hr).
  exists (slice src lastMatchEnd a0 ++ r).
  split; [by rewrite <- app_assoc|].
  rewrite <- (slice_drop src lastMatchEnd a0) by lia.
  apply sublist_app; [done|].
  etrans; [done|].
  replace a1 with (a0 + (a1 - a0)) by lia. rewrite <- drop_drop.
  apply sublist_drop.
Qed.

(** X15: stripping the comment delimiters from a line only deletes
    bytes: what is left is the line with some bytes removed, the others
    in their order; in particular it is no longer than the line. *)
Theorem stripped_sublist line :
  stripped line `sublist_of` line /\ length (stripped line) <= length line.
Proof.
  assert (stripped line `sublist_of` line) as H.
  { unfold stripped, ReplaceAllString.
    destruct (replaceLoop_sublist (length line + 2) allCommentDelims line
                0 0 [] (le_n 0)) as (r & -> & Hr).
    by rewrite drop_0 in Hr. }
  split; [done|]. by apply sublist_length.
Qed.

Lemma search_here re b s e :
  matchHere re b s = Some e -> search re b s = Some (0, length s - length e).
Proof. intros H. destruct s; simpl; by rewrite H. Qed.

(** When a pattern matches at the head of a line, from offset 0 to a
    text [e] at the end of the line in which it matches nowhere,
    replacing its matches by nothing leaves [e]. *)
Lemma ReplaceAllString_head re (pre e : gostring) :
  2 <= length pre ->
  matchHere re true (pre ++ e) = Some e ->
  search re false e = None ->
  ReplaceAllString re (pre ++ e) [] = e.
Proof.
  intros Hpre Hhere Hrest. unfold ReplaceAllString.
  set (line := pre ++ e).
  assert (length line = length pre + length e) as Hlen
    by (unfold line; by rewrite length_app).
  assert (doExecute re line 0 = Some (0, length pre)) as Hexec.
  { unfold doExecute. rewrite drop_0. cbn [Nat.eqb].
    rewrite (search_here re true line e Hhere), Hlen.
    do 2 f_equal. lia. }
  replace (length line + 2) with (S (S (length line))) by lia.
  cbn [replaceLoop]. cbn [Nat.leb]. rewrite Hexec. cbv zeta.
  replace (0 <? length line) with true
    by (symmetry; apply Nat.ltb_lt; lia).
  replace (length pre <? 0 + 1) with false
    by (symmetry; apply Nat.ltb_ge; lia).
  unfold slice. cbn [Nat.sub take app orb Nat.ltb Nat.leb].
  replace (length pre <=? length line) with true
    by (symmetry; apply Nat.leb_le; lia).
  assert (doExecute re line (length pre) = None) as ->.
  { unfold doExecute. unfold line. rewrite drop_app_length.
    replace (length pre =? 0) with false
      by (symmetry; apply Nat.eqb_neq; lia).
    by rewrite Hrest. }
  destruct (_ || _); cbn [app]; unfold line; by rewrite drop_app_length.
Qed.

Lemma stripped_marker c2 ws rest :
  c2 = "/" \/ c2 = "*" ->
  Forall (fun x => perl_space x = true) ws -> "/" ∉ rest ->
  stripped (ws ++ "/" :: c2 :: rest) = dropOneSpace rest.
Proof.
  intros Hc2 Hws Hrest. unfold stripped.
  assert (dropOneSpace rest ⊆ rest) as Hsub.
  { destruct rest as [|x r]; [done|]. simpl.
    destruct (perl_space x); [|done]. intros y Hy. by right. }
  assert (exists pre,
            ws ++ "/" :: c2 :: rest = pre ++ dropOneSpace rest
            /\ 2 <= length pre) as (pre & E & Hpre).
  { destruct rest as [|x r].
    - exists (ws ++ ["/"; c2]). simpl. rewrite app_nil_r.
      split; [done|]. rewrite length_app. simpl. lia.
    - simpl. destruct (perl_space x).
      + exists (ws ++ ["/"; c2; x]). rewrite <- app_assoc.
        split; [done|]. rewrite length_app. simpl. lia.
      + exists (ws ++ ["/"; c2]). rewrite <- app_assoc.
        split; [done|]. rewrite length_app. simpl. lia. }
  rewrite E. apply ReplaceAllString_head; [done| |].
  - rewrite <- E.
    assert (matchSeq [Lit "/"; Lit c2; Opt perl_space] false
              ("/" :: c2 :: rest) = Some (dropOneSpace rest)) as Hm.
    { cbn [matchSeq]. rewrite !Ascii.eqb_refl.
      destruct rest as [|x r]; [done|]. simpl. by destruct (perl_space x). }
    unfold allCommentDelims. cbn [matchHere].
    destruct Hc2 as [-> | ->].
    + unfold commentPtrn.
      change (matchSeq (BeginText :: ?r) true ?s) with (matchSeq r true s).
      rewrite matchSeq_slash_after_space, dropWhile_app_Forall by done.
      by rewrite Hm.
    + unfold commentPtrn, commentStartPtrn.
      change (matchSeq (BeginText :: ?r) true ?s) with (matchSeq r true s).
      rewrite !matchSeq_slash_after_space, dropWhile_app_Forall by done.
      by rewrite Hm.
  - apply search_needs_Lit with (c := "/"); [apply patterns_need_slash|].
    intros H. by apply Hsub in H.
Qed.

(** X16: from a line that begins, after any run of white space, with
    [//] or with [/*], and has no further slash, stripping removes that
    white space, the marker and one white-space byte after the marker, if
    there is one, and nothing else. *)
Theorem stripped_comment_line ws rest :
  Forall (fun x => perl_space x = true) ws -> "/" ∉ rest ->
  stripped (ws ++ "/" :: "/" :: rest) = dropOneSpace rest
  /\ stripped (ws ++ "/" :: "*" :: rest) = dropOneSpace rest.
Proof.
  intros Hws Hrest. split; apply stripped_marker; auto.
Qed.

Lemma stripped_comment_line_witness :
  stripped (gostr "\t//  two blanks") = gostr " two blanks".
Proof.
  refine (proj1 (stripped_comment_line (gostr "\t") (gostr "  two blanks")
                   _ _)).
  - repeat constructor.
  - vm_compute. intros H.
    repeat (apply elem_of_cons in H as [H|H]; [discriminate H|]).
    by apply elem_of_nil in H.
Defined.

(** ** A block comment that is closed *)

Lemma answers_app flag lines1 lines2 :
  answers flag (lines1 ++ lines2)
  = answers flag lines1 ++ answers (finderState flag lines1) lines2.
Proof.
  revert flag. induction lines1 as [|l lines1 IH]; intros flag; [done|].
  simpl. by rewrite IH.
Qed.

Lemma answers_inside lines :
  Forall (fun line => "/" ∉ line) lines ->
  answers true lines = replicate (length lines) true
  /\ finderState true lines = true.
Proof.
  induction 1 as [|l lines Hl _ [IH1 IH2]]; [done|].
  destruct (no_slash_line true l Hl) as (_ & _ & Hc).
  unfold finderState in *. simpl. rewrite Hc. simpl.
  by rewrite IH1, IH2.
Qed.

(** X17: a block comment that is opened and closed.  When the
    block-comment start pattern matches a line, the lines after it have
    no slash, and then comes a line on which only the end pattern
    matches, the classifier answers "comment" for all these lines, the
    closing one included, and is outside the comment afterwards,
    whatever its state was before; the next line without a slash is
    code. *)
Theorem block_comment_closed flag0 opening inside closing next :
  matches commentStart opening = true ->
  Forall (fun line => "/" ∉ line) inside ->
  matches comment closing = false ->
  matches commentStart closing = false ->
  matches commentEnd closing = true ->
  "/" ∉ next ->
  answers flag0 (opening :: inside ++ [closing])
  = replicate (S (S (length inside))) true
  /\ finderState flag0 (opening :: inside ++ [closing]) = false
  /\ isInComment (finderState flag0 (opening :: inside ++ [closing])) next
     = (false, false).
Proof.
  intros Hopen Hinside Hc1 Hc2 Hc3 Hnext.
  destruct (answers_inside inside Hinside) as [Ha Hf].
  assert (isInComment true closing = (true, false)) as Hclose.
  { unfold isInComment. fold (matches comment closing).
    fold (matches commentStart closing). fold (matches commentEnd closing).
    by rewrite Hc1, Hc2, Hc3. }
  assert (finderState flag0 (opening :: inside ++ [closing]) = false) as Hend.
  { change (opening :: inside ++ [closing])
      with ((opening :: inside) ++ [closing]).
    rewrite finderState_snoc.
    unfold finderState in *. cbn [fold_left].
    rewrite (isInComment_start flag0 opening Hopen). cbn [snd].
    by rewrite Hf, Hclose. }
  split; [|split; [done|]].
  - cbn [answers]. rewrite (isInComment_start flag0 opening Hopen).
    cbn [fst snd]. rewrite answers_app, Ha, Hf. cbn [answers].
    rewrite Hclose. cbn [fst].
    by rewrite <- replicate_S_end.
  - rewrite Hend. by destruct (no_slash_line false next Hnext) as (_&_&?).
Qed.

Lemma block_comment_closed_witness :
  answers false [gostr "/* Begin"; gostr "within"; []; gostr "End */"]
  = [true; true; true; true].
Proof.
  refine (proj1 (block_comment_closed false (gostr "/* Begin")
                   [gostr "within"; []] (gostr "End */") (gostr "func test() {")
                   _ _ _ _ _ _)).
  - vm_compute. reflexivity.
  - repeat constructor; vm_compute; intros H;
      repeat (apply elem_of_cons in H as [H|H]; [discriminate H|]);
      by apply elem_of_nil in H.
  - vm_compute. reflexivity.
  - vm_compute. reflexivity.
  - vm_compute. reflexivity.
  - vm_compute. intros H.
    repeat (apply elem_of_cons in H as [H|H]; [discriminate H|]).
    by apply elem_of_nil in H.
Defined.
